(** * Verification of [common/schedulers/slurm_commands.py]

    A shallow embedding of the Slurm command layer of
    aws-parallelcluster-node: the node-range batcher, the update command
    builder, the partition operations and the [scontrol] output parser,
    followed by the properties proved about them.

    Python values are modelled as follows: [str] as [string] (ASCII text),
    [list] as [list], [dict] as [gmap], [None]-or-value as [option].
    Exceptions and side effects (external commands, [time.sleep], logging,
    the singleton cache) are threaded through an explicit state-and-error
    monad. *)

From Stdlib Require Import ZArith Ascii String List Lia Bool.
From stdpp Require Import base option list strings gmap.

Local Open Scope Z_scope.

(** ** Python's [str] operations used by the module *)

Module Py.

(** Characters the module's literals need and that have no printable
    spelling inside a Rocq string. *)
Definition LF : ascii := "010"%char.
Definition CR : ascii := "013"%char.
Definition DQUOTE : string := String "034"%char EmptyString.

(** Prepends a character to the first piece of a split. *)
Definition cons_head (c : ascii) (l : list string) : list string :=
  match l with
  | [] => [String c EmptyString]
  | t :: ts => String c t :: ts
  end.

(** [sep.join(l)] *)
Fixpoint join (sep : string) (l : list string) : string :=
  match l with
  | [] => EmptyString
  | [t] => t
  | t :: ts => t +:+ sep +:+ join sep ts
  end.

(** [s.startswith(p)] *)
Fixpoint startswith (p s : string) : bool :=
  match p, s with
  | EmptyString, _ => true
  | String a p', String b s' => if decide (a = b) then startswith p' s' else false
  | String _ _, EmptyString => false
  end.

(** [s.split(sep)] for a non-empty separator: the pieces between the
    non-overlapping occurrences of [sep], scanned left to right.  [skip]
    counts the characters of a matched separator still to be dropped. *)
Fixpoint split_go (sep : string) (skip : nat) (s : string) : list string :=
  match s with
  | EmptyString => [EmptyString]
  | String c s' =>
      match skip with
      | S k => split_go sep k s'
      | O =>
          if startswith sep s
          then EmptyString :: split_go sep (Nat.pred (String.length sep)) s'
          else cons_head c (split_go sep O s')
      end
  end.

Definition split (sep s : string) : list string := split_go sep O s.

(** Line boundaries of [str.splitlines] in the ASCII range:
    LF, VT, FF, CR, FS, GS, RS (CR LF counts as one boundary). *)
Definition is_linebreak (c : ascii) : bool :=
  match c with
  | "010" | "011" | "012" | "013" | "028" | "029" | "030" => true
  | _ => false
  end%char.

(** [s.splitlines()] *)
Fixpoint splitlines (s : string) : list string :=
  match s with
  | EmptyString => []
  | String c s' =>
      if is_linebreak c then
        match s' with
        | String c' s'' =>
            if decide (c = CR /\ c' = LF)
            then EmptyString :: splitlines s''
            else EmptyString :: splitlines s'
        | EmptyString => [EmptyString]
        end
      else cons_head c (splitlines s')
  end.

(** Whitespace removed by [str.strip()] in the ASCII range. *)
Definition is_space (c : ascii) : bool :=
  match c with
  | "009" | "010" | "011" | "012" | "013"
  | "028" | "029" | "030" | "031" | " " => true
  | _ => false
  end%char.

Fixpoint lstrip (s : string) : string :=
  match s with
  | String c s' => if is_space c then lstrip s' else s
  | EmptyString => EmptyString
  end.

Fixpoint rstrip (s : string) : string :=
  match s with
  | String c s' =>
      match rstrip s' with
      | EmptyString => if is_space c then EmptyString else String c EmptyString
      | r => String c r
      end
  | EmptyString => EmptyString
  end.

(** [s.strip()] *)
Definition strip (s : string) : string := rstrip (lstrip s).

(** Truth value of a [str]: only the empty string is falsy. *)
Definition truthy_str (s : string) : bool :=
  match s with EmptyString => false | _ => true end.

(** [re.split("(?<=]),", s)]: the pattern matches a comma whose
    preceding character is a closing bracket; the matched comma is
    removed and the text on both sides becomes separate pieces. *)
Fixpoint re_split_after_bracket (s : string) : list string :=
  match s with
  | EmptyString => [EmptyString]
  | String c s' =>
      match s' with
      | String c' s'' =>
          if decide (c = "]"%char /\ c' = ","%char)
          then String c EmptyString :: re_split_after_bracket s''
          else cons_head c (re_split_after_bracket s')
      | EmptyString => cons_head c (re_split_after_bracket s')
      end
  end.

End Py.

(** ** Python's [datetime] *)

Module Datetime.

(** A naive [datetime]: wall-clock fields, no time zone attached. *)
Record naive := mk_naive {
  year : Z; month : Z; day : Z; hour : Z; minute : Z; second : Z
}.

Definition is_leap (y : Z) : bool :=
  ((y mod 4 =? 0) && negb (y mod 100 =? 0)) || (y mod 400 =? 0).

Definition days_in_month (y m : Z) : Z :=
  if m =? 2 then (if is_leap y then 29 else 28)
  else if (m =? 4) || (m =? 6) || (m =? 9) || (m =? 11) then 30
  else 31.

(** Days between 1970-01-01 and the given proleptic Gregorian date. *)
Definition days_from_civil (y m d : Z) : Z :=
  let y' := if m <=? 2 then y - 1 else y in
  let era := y' / 400 in
  let yoe := y' - era * 400 in
  let doy := (153 * (if 2 <? m then m - 3 else m + 9) + 2) / 5 + d - 1 in
  let doe := yoe * 365 + yoe / 4 - yoe / 100 + doy in
  era * 146097 + doe - 719468.

(** Seconds between the epoch and the wall-clock time read as UTC. *)
Definition seconds_of (t : naive) : Z :=
  days_from_civil (year t) (month t) (day t) * 86400
  + hour t * 3600 + minute t * 60 + second t.

(** A UTC-aware [datetime], identified by its POSIX timestamp; [utc]
    builds the one that prints as [Y-M-DTh:m:s+00:00]. *)
Definition utc (Y M D h m s : Z) : Z := seconds_of (mk_naive Y M D h m s).

(** The value of a decimal digit. *)
Definition digit (c : ascii) : option Z := Z.of_nat <$> Ascii.is_nat c.

(** The value of a field made of one or two characters, when the pair of
    its characters is accepted by [two] (a one-character field must be a
    digit accepted by [one]). *)
Definition field (one : Z -> bool) (two : ascii -> Z -> bool) (f : string) : option Z :=
  match f with
  | String a EmptyString =>
      match digit a with
      | Some x => if one x then Some x else None
      | None => None
      end
  | String a (String b EmptyString) =>
      match digit b with
      | Some y =>
          if two a y then
            Some (match digit a with Some x => 10 * x + y | None => y end)
          else None
      | None => None
      end
  | _ => None
  end.

Definition lead (a : ascii) (lo hi : Z) : bool :=
  match digit a with Some x => (lo <=? x) && (x <=? hi) | None => false end.

(** The directives of [_strptime]'s regular expressions. *)
(** [%m]: 1[0-2] or 0[1-9] or [1-9] *)
Definition field_m : string -> option Z :=
  field (fun x => 1 <=? x)
        (fun a y => (lead a 1 1 && (y <=? 2)) || (lead a 0 0 && (1 <=? y))).
(** [%d]: 3[0-1] or [1-2]\d or 0[1-9] or [1-9] or a space and [1-9] *)
Definition field_d : string -> option Z :=
  field (fun x => 1 <=? x)
        (fun a y => (lead a 3 3 && (y <=? 1)) || lead a 1 2
                    || (lead a 0 0 && (1 <=? y))
                    || (bool_decide (a = " "%char) && (1 <=? y))).
(** [%H]: 2[0-3] or [0-1]\d or \d *)
Definition field_H : string -> option Z :=
  field (fun _ => true) (fun a y => (lead a 2 2 && (y <=? 3)) || lead a 0 1).
(** [%M]: [0-5]\d or \d *)
Definition field_M : string -> option Z :=
  field (fun _ => true) (fun a _ => lead a 0 5).
(** [%S]: 6[0-1] or [0-5]\d or \d *)
Definition field_S : string -> option Z :=
  field (fun _ => true) (fun a y => (lead a 6 6 && (y <=? 1)) || lead a 0 5).
(** [%Y]: \d\d\d\d *)
Definition field_Y (f : string) : option Z :=
  match f with
  | String a (String b (String c (String d EmptyString))) =>
      match digit a, digit b, digit c, digit d with
      | Some w, Some x, Some y, Some z => Some (1000 * w + 100 * x + 10 * y + z)
      | _, _, _, _ => None
      end
  | _ => None
  end.

(** Splits at the literal [T] of the format, matched ignoring case. *)
Fixpoint split_T (s : string) : list string :=
  match s with
  | EmptyString => [EmptyString]
  | String c s' =>
      if bool_decide (c = "T"%char \/ c = "t"%char)
      then EmptyString :: split_T s'
      else Py.cons_head c (split_T s')
  end.

(** The range checks of the [datetime] constructor. *)
Definition valid (t : naive) : bool :=
  (1 <=? year t) && (year t <=? 9999)
  && (1 <=? month t) && (month t <=? 12)
  && (1 <=? day t) && (day t <=? days_in_month (year t) (month t))
  && (0 <=? hour t) && (hour t <=? 23)
  && (0 <=? minute t) && (minute t <=? 59)
  && (0 <=? second t) && (second t <=? 59).

(** [datetime.strptime(s, "%Y-%m-%dT%H:%M:%S")]; [None] stands for the
    [ValueError] raised when the text does not match the format or the
    fields are out of range. *)
Definition strptime (s : string) : option naive :=
  match Py.split "-" s with
  | [fY; fm; rest] =>
      match split_T rest with
      | [fd; hms] =>
          match Py.split ":" hms with
          | [fH; fM; fS] =>
              match field_Y fY, field_m fm, field_d fd,
                    field_H fH, field_M fM, field_S fS with
              | Some vY, Some vm, Some vd, Some vH, Some vM, Some vS =>
                  let t := mk_naive vY vm vd vH vM vS in
                  if valid t then Some t else None
              | _, _, _, _, _, _ => None
              end
          | _ => None
          end
      | _ => None
      end
  | _ => None
  end.

End Datetime.

(** ** Exceptions, effects and the execution environment *)

(** The exceptions the module meets.  [InjectionRisk] is the rejection of
    [validate_subprocess_argument], [CommandError] the failure of an
    external command, [OwnershipSourceError] a mapping file that cannot be
    loaded. *)
Inductive exn :=
| ValueError
| KeyError (key : string)
| TypeError
| InvalidNodenameError
| InjectionRisk (arg : string)
| CommandError (cmd : string)
| OwnershipSourceError.

Inductive result (A : Type) :=
| Ok (a : A)
| Raise (e : exn).
Arguments Ok {A} a.
Arguments Raise {A} e.

Inductive level := INFO | WARNING | ERROR.

(** What the module does to the outside world, in order: an external
    command with its outcome, a [time.sleep] in milliseconds, a log record
    (level and format string; the arguments are not kept). *)
Inductive event :=
| EvCmd (cmd : string) (ok : bool)
| EvSleep (ms : Z)
| EvLog (lvl : level) (fmt : string).

(** A value held by the keyword arguments of a node. *)
Inductive pyval :=
| VStr (s : string)
| VDatetime (posix : Z)
| VNone.

(** A [str] or a [list] of [str], as the node arguments of the module. *)
Inductive str_or_list :=
| PStr (s : string)
| PList (l : list string).

(** Everything the module takes from outside [slurm_commands.py]: the
    process environment, the operating system, and what the helpers of
    [common.utils] and [slurm_plugin.slurm_resources] answer. *)
Class Env := {
  (** state of the scheduler and of the machine *)
  World : Type;
  (** [os.environ.get("SLURM_BINARIES_DIR", "/opt/slurm/bin")] *)
  SLURM_BINARIES_DIR : string;
  (** runs a shell command under an optional timeout (seconds); [true] on
      exit status zero within the timeout *)
  run_process : string -> option Z -> World -> bool * World;
  (** the same, returning the captured standard output on success *)
  capture_process : string -> option Z -> World -> option string * World;
  (** content of the partition-nodelist JSON file, in file order; [None]
      when it cannot be read or decoded *)
  load_mapping_file : World -> option (list (string * string));
  (** the strings accepted by [validate_subprocess_argument] *)
  argument_ok : string -> bool;
  (** [parse_nodename]: queue, node type and compute resource of a node
      name; [None] stands for [InvalidNodenameError] *)
  parse_nodename : string -> option (string * string * string);
  (** the [PartitionStatus] enumeration and its by-value constructor;
      [None] stands for the [ValueError] of an unknown value *)
  Status : Type;
  Status_eq_dec :: EqDecision Status;
  PartitionStatus : string -> option Status;
  (** UTC offset, in seconds, of the system's local time zone at a given
      local wall-clock time *)
  local_utcoffset : Datetime.naive -> Z
}.

Record St `{Env} := mk_St {
  world : World;
  trace : list event;
  (** [PartitionNodelistMapping._instance]: [None], or the instance with
      its [partition_nodelist_mapping] *)
  pnm_instance : option (list (string * string))
}.
Arguments mk_St {_} _ _ _.

Definition M `{Env} (A : Type) : Type := St -> result A * St.

Global Instance result_ret : MRet result := fun A a => Ok a.
Global Instance result_bind : MBind result := fun A B f m =>
  match m with
  | Ok a => f a
  | Raise e => Raise e
  end.

Global Instance result_fmap : FMap result := fun A B f m =>
  match m with
  | Ok a => Ok (f a)
  | Raise e => Raise e
  end.

Global Instance M_ret `{Env} : MRet M := fun A a st => (Ok a, st).
Global Instance M_bind `{Env} : MBind M := fun A B f m st =>
  match m st with
  | (Ok a, st') => f a st'
  | (Raise e, st') => (Raise e, st')
  end.

Section Effects.
Context `{Env}.

Definition raise {A} (e : exn) : M A := fun st => (Raise e, st).

(** A computation without effects, run inside [M]. *)
Definition liftR {A} (r : result A) : M A := fun st => (r, st).

(** [try: body except E: handler]; [handler e = None] when the clause
    does not match [e], which then propagates. *)
Definition try_except {A} (body : M A) (handler : exn -> option (M A)) : M A :=
  fun st =>
    match body st with
    | (Ok a, st') => (Ok a, st')
    | (Raise e, st') =>
        match handler e with
        | Some h => h st'
        | None => (Raise e, st')
        end
    end.

Definition emit (ev : event) : M unit :=
  fun st => (Ok tt, mk_St (world st) (trace st ++ [ev]) (pnm_instance st)).

Definition log (lvl : level) (fmt : string) : M unit := emit (EvLog lvl fmt).

(** [time.sleep(ms / 1000.0)] *)
Definition sleep (ms : Z) : M unit := emit (EvSleep ms).

(** [for x in l: body] *)
Fixpoint for_each {A} (l : list A) (body : A -> M unit) : M unit :=
  match l with
  | [] => mret tt
  | x :: l' => body x ;; for_each l' body
  end.

(** A [for] loop that updates a local variable [acc]. *)
Fixpoint for_fold {A B} (l : list A) (acc : B) (body : B -> A -> M B) : M B :=
  match l with
  | [] => mret acc
  | x :: l' => acc' ← body acc x; for_fold l' acc' body
  end.

(** A list comprehension [[f x for x in l]]. *)
Fixpoint for_list {A B} (l : list A) (f : A -> M B) : M (list B) :=
  match l with
  | [] => mret []
  | x :: l' => y ← f x; ys ← for_list l' f; mret (y :: ys)
  end.

(** The [retry] decorator of the [retrying] package with
    [stop_max_attempt_number] and [wait_fixed] (milliseconds): the call
    is repeated after any exception, sleeping [wait_fixed] before each
    new attempt, until it returns or the attempt count is reached; the
    last exception is then raised again. *)
Fixpoint retry_loop {A} (attempts_left : nat) (wait_fixed : Z) (f : M A) : M A :=
  try_except f (fun e =>
    Some match attempts_left with
         | O => raise e
         | S n => sleep wait_fixed ;; retry_loop n wait_fixed f
         end).

Definition retry {A} (stop_max_attempt_number : nat) (wait_fixed : Z) (f : M A) : M A :=
  retry_loop (Nat.pred stop_max_attempt_number) wait_fixed f.

End Effects.

(** ** [common.utils] *)

Module Utils.
Section Utils.
Context `{Env}.

Fixpoint grouper_fuel {A} (fuel : nat) (l : list A) (n : nat) : list (list A) :=
  match fuel with
  | O => []
  | S fuel' =>
      match take n l with
      | [] => []
      | chunk => chunk :: grouper_fuel fuel' (drop n l) n
      end
  end.

(** Modelled from the spec: [grouper(iterable, n)] of [common.utils],
    whose code is not part of the sources at hand.  It partitions the
    sequence into fixed-size groups of [n] consecutive elements, in
    order, the last group holding the remainder. *)
Definition grouper {A} (l : list A) (n : nat) : list (list A) :=
  grouper_fuel (length l) l n.

(** Modelled from the spec: [validate_subprocess_argument] of
    [common.utils] rejects a string that enables shell injection, by
    raising, and returns normally otherwise. *)
Definition validate_subprocess_argument (argument : string) : M unit :=
  if argument_ok argument then mret tt else raise (InjectionRisk argument).

(** Modelled from the spec: [run_command] of [common.utils] runs a shell
    command with a timeout and raises on a non-zero exit unless
    [raise_on_error] is false. *)
Definition run_command (command : string) (raise_on_error : bool)
    (timeout : option Z) : M unit :=
  fun st =>
    let '(ok, w) := run_process command timeout (world st) in
    let st' := mk_St w (trace st ++ [EvCmd command ok]) (pnm_instance st) in
    if ok then (Ok tt, st')
    else if raise_on_error then (Raise (CommandError command), st')
    else (Ok tt, st').

(** Modelled from the spec: [check_command_output] of [common.utils]
    runs a shell command with a timeout, returns the captured standard
    output and raises on a non-zero exit. *)
Definition check_command_output (command : string) (timeout : option Z) : M string :=
  fun st =>
    let '(out, w) := capture_process command timeout (world st) in
    let st' := mk_St w (trace st ++ [EvCmd command (bool_decide (is_Some out))])
                     (pnm_instance st) in
    match out with
    | Some text => (Ok text, st')
    | None => (Raise (CommandError command), st')
    end.

End Utils.
End Utils.

(** ** [slurm_plugin.slurm_resources] *)

Module SlurmResources.

Inductive node_kind := Static | Dynamic.

(** A [StaticNode] or a [DynamicNode], with the keyword arguments it was
    built from. *)
Record SlurmNode := mk_node {
  kind : node_kind;
  attrs : gmap string pyval
}.

(** Modelled from the spec: the constructors of [StaticNode] and
    [DynamicNode] ([slurm_plugin.slurm_resources], not part of the
    sources at hand) store the attributes they are given; name, address,
    hostname and state are mandatory, partitions, reason and the two
    timestamps are optional.  A missing mandatory argument is Python's
    [TypeError]. *)
Definition has_mandatory (kwargs : gmap string pyval) : bool :=
  forallb (fun a => bool_decide (is_Some (kwargs !! a)))
          ["name"; "nodeaddr"; "nodehostname"; "state"].

Definition new_node (k : node_kind) (kwargs : gmap string pyval) : result SlurmNode :=
  if has_mandatory kwargs then Ok (mk_node k kwargs) else Raise TypeError.

Definition StaticNode := new_node Static.
Definition DynamicNode := new_node Dynamic.

(** [SlurmPartition(name, nodenames, state)] *)
Record SlurmPartition := mk_partition {
  name : string;
  nodenames : string;
  state : string
}.

Fixpoint all_digits (s : string) : bool :=
  match s with
  | EmptyString => true
  | String c s' =>
      match Datetime.digit c with Some _ => all_digits s' | None => false end
  end.

(** The split of the hyphen-separated fields [fs] that follow the fields
    [q] of the queue name: a field equal to [st] or [dy] that leaves a
    non-empty instance type and a number behind it is the provisioning
    mode; when several fields qualify, the queue name is the longest. *)
Fixpoint find_mode (q : list string) (fs : list string)
    : option (string * string * string) :=
  match fs with
  | m :: rest =>
      match find_mode (q ++ [m]) rest with
      | Some r => Some r
      | None =>
          match reverse rest with
          | num :: rtype =>
              let queue := Py.join "-" q in
              let itype := Py.join "-" (reverse rtype) in
              if bool_decide (m = "st" \/ m = "dy")
                 && Py.truthy_str num && all_digits num
                 && Py.truthy_str queue && Py.truthy_str itype
              then Some (queue, m, itype)
              else None
          | [] => None
          end
      end
  | [] => None
  end.

(** Modelled from the spec: [parse_nodename] of
    [slurm_plugin.slurm_resources], not part of the sources at hand.  A
    valid name has the form [{queue}-{st|dy}-{instancetype}-{number}] and
    yields the queue, the provisioning mode and the instance type;
    [None] stands for [InvalidNodenameError]. *)
Definition spec_parse_nodename (nodename : string) : option (string * string * string) :=
  find_mode [] (Py.split "-" nodename).

End SlurmResources.

(** ** [common/schedulers/slurm_commands.py] *)

Module SlurmCommands.
Import Utils SlurmResources.
Section SlurmCommands.
Context `{Env}.

Definition SCONTROL : string := "sudo " +:+ SLURM_BINARIES_DIR +:+ "/scontrol".
Definition SINFO : string := SLURM_BINARIES_DIR +:+ "/sinfo".

Definition DEFAULT_GET_INFO_COMMAND_TIMEOUT : Z := 30.
Definition DEFAULT_UPDATE_COMMAND_TIMEOUT : Z := 60.

(** *** [PartitionNodelistMapping] *)

(** [PartitionNodelistMapping.instance()]: creates the singleton, with
    an empty mapping, when there is none. *)
Definition instance : M unit :=
  fun st =>
    match pnm_instance st with
    | Some _ => (Ok tt, st)
    | None => (Ok tt, mk_St (world st) (trace st) (Some []))
    end.

(** [get_partition_nodelist_mapping]: loads the JSON file while the
    cached mapping is empty. *)
Definition get_partition_nodelist_mapping : M (list (string * string)) :=
  fun st =>
    match pnm_instance st with
    | Some ((_ :: _) as mapping) => (Ok mapping, st)
    | _ =>
        match load_mapping_file (world st) with
        | Some mapping => (Ok mapping, mk_St (world st) (trace st) (Some mapping))
        | None => (Raise OwnershipSourceError, st)
        end
    end.

Definition get_partitions : M (list string) :=
  mapping ← get_partition_nodelist_mapping;
  mret (mapping.*1).

(** [PartitionNodelistMapping.reset()] *)
Definition reset : M unit :=
  fun st => (Ok tt, mk_St (world st) (trace st) None).

(** *** Node names *)

Definition is_static_node (nodename : string) : result bool :=
  match parse_nodename nodename with
  | Some (_, node_type, _) => Ok (bool_decide ("st" = node_type))
  | None => Raise InvalidNodenameError
  end.

(** *** Batching *)

(** [if type(attribute) is str: attribute = re.split("(?<=]),", attribute)] *)
Definition tokens (attribute : str_or_list) : list string :=
  match attribute with
  | PStr s => Py.re_split_after_bracket s
  | PList l => l
  end.

(** Truth value of an optional [str]-or-[list] argument. *)
Definition truthy (a : option str_or_list) : bool :=
  match a with
  | None | Some (PStr EmptyString) | Some (PList []) => false
  | Some _ => true
  end.

Definition _batch_attribute (attribute : str_or_list) (batch_size : nat)
    (expected_length : option nat) : result (list string) :=
  let attribute := tokens attribute in
  let mismatch :=
    match expected_length with
    | Some (S _ as n) => negb (length attribute =? n)%nat
    | Some O | None => false
    end in
  if mismatch then Raise ValueError
  else Ok (Py.join "," <$> grouper attribute batch_size).

(** One side of the final [zip]: the attribute's batches when it is
    given, [None] for every node batch otherwise. *)
Definition optional_batches (what : string) (attribute : option str_or_list)
    (batch_size : nat) (nodenames : list string) (n_batches : nat)
    : M (list (option string)) :=
  match attribute with
  | Some a =>
      if truthy attribute then
        try_except
          (liftR (fmap (M := list) Some
                    <$> _batch_attribute a batch_size (Some (length nodenames))))
          (fun e =>
             match e with
             | ValueError =>
                 Some (log ERROR ("Nodename %s and " +:+ what
                                  +:+ " %s contain different number of entries") ;;
                       raise ValueError)
             | _ => None
             end)
      else mret (replicate n_batches None)
  | None => mret (replicate n_batches None)
  end.

Definition zip3 {A B C} (a : list A) (b : list B) (c : list C) : list (A * B * C) :=
  zip (zip a b) c.

Definition _batch_node_info (nodenames : str_or_list)
    (nodeaddrs nodehostnames : option str_or_list) (batch_size : nat)
    : M (list (string * option string * option string)) :=
  let nodenames := tokens nodenames in
  nodename_batch ← liftR (_batch_attribute (PList nodenames) batch_size None);
  nodeaddrs_batch ←
    optional_batches "NodeAddr" nodeaddrs batch_size nodenames (length nodename_batch);
  nodehostnames_batch ←
    optional_batches "NodeHostname" nodehostnames batch_size nodenames (length nodename_batch);
  mret (zip3 nodename_batch nodeaddrs_batch nodehostnames_batch).

(** *** Node updates *)

(** The body of the loop of [update_nodes] for one batch. *)
Definition update_batch (update_cmd : string) (raise_on_error : bool)
    (command_timeout : Z) (batch : string * option string * option string) : M unit :=
  let '(nodenames, addrs, hostnames) := batch in
  validate_subprocess_argument nodenames ;;
  let node_info := "nodename=" +:+ nodenames in
  node_info ←
    match addrs with
    | Some a =>
        if Py.truthy_str a
        then validate_subprocess_argument a ;; mret (node_info +:+ " nodeaddr=" +:+ a)
        else mret node_info
    | None => mret node_info
    end;
  node_info ←
    match hostnames with
    | Some h =>
        if Py.truthy_str h
        then validate_subprocess_argument h ;; mret (node_info +:+ " nodehostname=" +:+ h)
        else mret node_info
    | None => mret node_info
    end;
  run_command (update_cmd +:+ " " +:+ node_info) raise_on_error (Some command_timeout).

(** The [state=] and [reason=] part of the command, validated. *)
Definition update_command (state reason : option string) : M string :=
  let update_cmd := SCONTROL +:+ " update" in
  update_cmd ←
    match state with
    | Some s =>
        if Py.truthy_str s
        then validate_subprocess_argument s ;; mret (update_cmd +:+ " state=" +:+ s)
        else mret update_cmd
    | None => mret update_cmd
    end;
  match reason with
  | Some r =>
      if Py.truthy_str r
      then validate_subprocess_argument r ;;
           mret (update_cmd +:+ " reason=" +:+ Py.DQUOTE +:+ r +:+ Py.DQUOTE)
      else mret update_cmd
  | None => mret update_cmd
  end.

Definition update_nodes (nodes : str_or_list)
    (nodeaddrs nodehostnames : option str_or_list)
    (state reason : option string) (raise_on_error : bool)
    (command_timeout : Z) : M unit :=
  batched_node_info ← _batch_node_info nodes nodeaddrs nodehostnames 100;
  update_cmd ← update_command state reason;
  for_each batched_node_info (update_batch update_cmd raise_on_error command_timeout).

Definition set_nodes_down (nodes : str_or_list) (reason : option string) : M unit :=
  update_nodes nodes None None (Some "down") reason true DEFAULT_UPDATE_COMMAND_TIMEOUT.

Definition set_nodes_drain (nodes : str_or_list) (reason : option string) : M unit :=
  update_nodes nodes None None (Some "drain") reason true DEFAULT_UPDATE_COMMAND_TIMEOUT.

Definition reset_nodes (nodes : str_or_list) (state reason : option string)
    (raise_on_error : bool) : M unit :=
  update_nodes nodes (Some nodes) (Some nodes) state reason raise_on_error
               DEFAULT_UPDATE_COMMAND_TIMEOUT.

Definition set_nodes_power_down (nodes : str_or_list) (reason : option string) : M unit :=
  retry 3 1500 (reset_nodes nodes (Some "power_down_force") reason true).

Definition set_nodes_idle (nodes : str_or_list) (reason : option string)
    (reset_node_addrs_hostname : bool) : M unit :=
  if reset_node_addrs_hostname
  then reset_nodes nodes (Some "resume") reason false
  else update_nodes nodes None None (Some "resume") reason false
                    DEFAULT_UPDATE_COMMAND_TIMEOUT.

(** *** Partitions *)

Definition partition_command (partition state : string) : string :=
  SCONTROL +:+ " update partitionname=" +:+ partition +:+ " state=" +:+ state.

(** The [try] block of [update_partitions] for one partition. *)
Definition update_partition (partition state : string) : M unit :=
  validate_subprocess_argument partition ;;
  run_command (partition_command partition state) true None.

Definition update_partitions (partitions : list string) (state : string)
    : M (list string) :=
  validate_subprocess_argument state ;;
  for_fold partitions [] (fun succeeded_partitions partition =>
    try_except
      (update_partition partition state ;;
       mret (succeeded_partitions ++ [partition]))
      (fun e =>
         Some (log ERROR "Failed when setting partition %s to %s with error %s" ;;
               mret succeeded_partitions))).

Definition _get_partition_grep_filter (partitions : list string) : string :=
  match partitions with
  | [] => EmptyString
  | _ =>
      foldl (fun grep_filter partition =>
               grep_filter +:+ " -e " +:+ Py.DQUOTE +:+ "PartitionName="
               +:+ partition +:+ Py.DQUOTE)
            " | grep" partitions
  end.

Definition _parse_partition_name_and_state (partition_info : string)
    : list (list string) :=
  grouper (Py.splitlines partition_info) 2.

Definition _get_all_partition_nodes (partition_name : string) (command_timeout : Z)
    : M string :=
  validate_subprocess_argument partition_name ;;
  out ← check_command_output (SINFO +:+ " -h -p " +:+ partition_name +:+ " -o %N")
                             (Some command_timeout);
  mret (Py.strip out).

Definition get_partitions_info (command_timeout : Z) : M (list SlurmPartition) :=
  instance ;;
  partitions ← get_partitions;
  let grep_filter := _get_partition_grep_filter partitions in
  let show_partition_info_command :=
    SCONTROL +:+ " show partitions -o " +:+ grep_filter +:+ " "
    +:+ "| grep -oP " +:+ Py.DQUOTE
    +:+ "^PartitionName=\K(\S+)| State=\K(\S+)" +:+ Py.DQUOTE in
  partition_info_str ←
    check_command_output show_partition_info_command (Some command_timeout);
  for_list (_parse_partition_name_and_state partition_info_str) (fun info =>
    match info with
    | [partition_name; partition_state] =>
        nodes ← _get_all_partition_nodes partition_name DEFAULT_GET_INFO_COMMAND_TIMEOUT;
        mret (mk_partition partition_name nodes partition_state)
    | _ => raise ValueError
    end).

(** The body of the loop of [update_all_partitions] for one partition. *)
Definition collect_partition (state : string) (reset_node_addrs_hostname : bool)
    (partition_to_update : list string) (part : SlurmPartition) : M (list string) :=
  current ← liftR (from_option Ok (Raise ValueError) (PartitionStatus (SlurmResources.state part)));
  target ← liftR (from_option Ok (Raise ValueError) (PartitionStatus state));
  if decide (current <> target) then
    log INFO "Setting partition %s state from %s to %s" ;;
    (if reset_node_addrs_hostname
     then log INFO "Resetting partition nodes %s" ;;
          set_nodes_power_down (PStr (nodenames part)) (Some "stopping cluster")
     else mret tt) ;;
    mret (partition_to_update ++ [name part])
  else mret partition_to_update.

(** The partitions whose state differs from the target, as the [try]
    block of [update_all_partitions] collects them. *)
Definition partitions_to_update (state : string) (reset_node_addrs_hostname : bool)
    : M (list string) :=
  partitions ← get_partitions_info DEFAULT_GET_INFO_COMMAND_TIMEOUT;
  for_fold partitions [] (collect_partition state reset_node_addrs_hostname).

Definition update_all_partitions (state : string) (reset_node_addrs_hostname : bool)
    : M bool :=
  try_except
    (partition_to_update ← partitions_to_update state reset_node_addrs_hostname;
     succeeded_partitions ← update_partitions partition_to_update state;
     mret (bool_decide (succeeded_partitions = partition_to_update)))
    (fun e =>
       Some (log ERROR "Failed when updating partitions with error %s" ;;
             mret false)).

(** *** Parsing the node dump *)

Definition map_slurm_key_to_arg : gmap string string :=
  list_to_map
    [("NodeName", "name"); ("NodeAddr", "nodeaddr");
     ("NodeHostName", "nodehostname"); ("State", "state");
     ("Partitions", "partitions"); ("Reason", "reason");
     ("SlurmdStartTime", "slurmdstarttime"); ("LastBusyTime", "lastbusytime")].

Definition date_fields : list string := ["SlurmdStartTime"; "LastBusyTime"].

(** [naive.astimezone(tz=timezone.utc)]: a naive value is taken as system
    local time and converted to UTC.  The result is not checked against the
    range of [datetime]: for a value at the very ends of that range (the
    first day of year 1, the last of year 9999) Python raises instead, a
    case this total function leaves out. *)
Definition astimezone_utc (t : Datetime.naive) : Z :=
  Datetime.seconds_of t - local_utcoffset t.

(** The value stored for a date field. *)
Definition parse_date (value : string) : result pyval :=
  if bool_decide (value ∉ ["None"; "Unknown"]) then
    match Datetime.strptime value with
    | Some t => Ok (VDatetime (astimezone_utc t))
    | None => Raise ValueError
    end
  else Ok VNone.

(** The body of the loop over the lines of a record. *)
Definition parse_line (kwargs : gmap string pyval) (line : string)
    : result (gmap string pyval) :=
  match Py.split "=" line with
  | [key; value] =>
      value ← (if bool_decide (key ∈ date_fields)
               then parse_date value else Ok (VStr value));
      match map_slurm_key_to_arg !! key with
      | Some arg => Ok (<[arg := value]> kwargs)
      | None => Raise (KeyError key)
      end
  | _ => Raise ValueError
  end.

Fixpoint parse_lines (kwargs : gmap string pyval) (lines : list string)
    : result (gmap string pyval) :=
  match lines with
  | [] => Ok kwargs
  | line :: lines' => kwargs' ← parse_line kwargs line; parse_lines kwargs' lines'
  end.

(** [kwargs["name"]], passed on as a [str]. *)
Definition kwargs_name (kwargs : gmap string pyval) : result string :=
  match kwargs !! "name" with
  | Some (VStr n) => Ok n
  | Some _ => Raise TypeError
  | None => Raise (KeyError "name")
  end.

(** The [try] block that builds the node of a record. *)
Definition build_node (kwargs : gmap string pyval) : result SlurmNode :=
  nodename ← kwargs_name kwargs;
  static ← is_static_node nodename;
  if static : bool then StaticNode kwargs else DynamicNode kwargs.

(** The body of the loop over the records. *)
Definition parse_record (slurm_nodes : list SlurmNode) (node : string)
    : M (list SlurmNode) :=
  let lines := Py.splitlines node in
  kwargs ← liftR (parse_lines ∅ lines);
  match lines with
  | [] => mret slurm_nodes
  | _ =>
      try_except
        (node ← liftR (build_node kwargs); mret (slurm_nodes ++ [node]))
        (fun e =>
           match e with
           | InvalidNodenameError =>
               Some (log WARNING "Ignoring node %s because it has an invalid name" ;;
                     mret slurm_nodes)
           | _ => None
           end)
  end.

Definition _parse_nodes_info (slurm_node_info : string) : M (list SlurmNode) :=
  let node_info := Py.split ("######" +:+ String Py.LF EmptyString) slurm_node_info in
  for_fold node_info [] parse_record.

End SlurmCommands.
End SlurmCommands.

(** ** [slurm_commands.py]: the queries built on the parser *)

Module SlurmQueries.
Import Utils SlurmResources SlurmCommands.
Section SlurmQueries.
Context `{Env}.

(** The filter that turns the paragraphs of [scontrol show nodes] into
    records closed by [######] and keeps the fields the parser knows.  The
    braces are doubled in the source and stay so: the constant is spliced
    into the command as it is. *)
Definition SCONTROL_OUTPUT_AWK_PARSER : string :=
  "awk 'BEGIN{{RS=" +:+ Py.DQUOTE +:+ "\n\n" +:+ Py.DQUOTE +:+ " ; ORS="
  +:+ Py.DQUOTE +:+ "######\n" +:+ Py.DQUOTE +:+ ";}} {{print}}' | "
  +:+ "grep -oP '^(NodeName=\S+)|(NodeAddr=\S+)|(NodeHostName=\S+)|(?<!Next)(State=\S+)|"
  +:+ "(Partitions=\S+)|(SlurmdStartTime=\S+)|(LastBusyTime=\S+)|(Reason=.*)|(######)'".

(** [",".join(PartitionNodelistMapping.instance().get_partitions())] *)
Definition all_partitions : M string :=
  instance ;;
  partitions ← get_partitions;
  mret (Py.join "," partitions).

Definition get_nodes_info (nodes : string) (command_timeout : Z) : M (list SlurmNode) :=
  nodes ←
    (if decide (nodes = EmptyString)
     then partition_names ← all_partitions;
          _get_all_partition_nodes partition_names DEFAULT_GET_INFO_COMMAND_TIMEOUT
     else mret nodes);
  validate_subprocess_argument nodes ;;
  let show_node_info_command :=
    SCONTROL +:+ " show nodes " +:+ nodes +:+ " | " +:+ SCONTROL_OUTPUT_AWK_PARSER in
  nodeinfo_str ← check_command_output show_node_info_command (Some command_timeout);
  _parse_nodes_info nodeinfo_str.

Definition _get_slurm_nodes (states partition_name : option string)
    (command_timeout : Z) : M (list string) :=
  let sinfo_command := SINFO +:+ " -h -N -o %N" in
  partition_name ←
    match partition_name with
    | Some p => if Py.truthy_str p then mret p else all_partitions
    | None => all_partitions
    end;
  validate_subprocess_argument partition_name ;;
  let sinfo_command := sinfo_command +:+ " -p " +:+ partition_name in
  sinfo_command ←
    match states with
    | Some s =>
        if Py.truthy_str s
        then validate_subprocess_argument s ;; mret (sinfo_command +:+ " -t " +:+ s)
        else mret sinfo_command
    | None => mret sinfo_command
    end;
  out ← check_command_output sinfo_command (Some command_timeout);
  mret (Py.splitlines out).

Definition resume_powering_down_nodes : M unit :=
  log INFO "Resuming powering down nodes." ;;
  powering_down_nodes ←
    _get_slurm_nodes (Some "powering_down") None DEFAULT_GET_INFO_COMMAND_TIMEOUT;
  update_nodes (PList powering_down_nodes) None None (Some "resume") None false
               DEFAULT_UPDATE_COMMAND_TIMEOUT.

End SlurmQueries.
End SlurmQueries.

(** ** Concrete environments *)

Module Samples.
Import SlurmResources.

(** A validator that rejects the shell metacharacters [;], [|] and [&]. *)
Fixpoint no_metachar (s : string) : bool :=
  match s with
  | EmptyString => true
  | String c s' =>
      negb (bool_decide (c = ";"%char \/ c = "|"%char \/ c = "&"%char))
      && no_metachar s'
  end.

Definition nl : string := String Py.LF EmptyString.

(** An environment over a world [W]: [run] decides the outcome of an
    update command, [capture] the output of a query, and local time is
    [offset] seconds ahead of UTC. *)
Definition sample_env (W : Type) (run : string -> W -> bool * W)
    (capture : string -> option string) (offset : Z) : Env := {|
  World := W;
  SLURM_BINARIES_DIR := "/opt/slurm/bin";
  run_process := fun cmd _ w => run cmd w;
  capture_process := fun cmd _ w => (capture cmd, w);
  load_mapping_file := fun _ =>
    Some [("queue1", "queue1-st-c5xlarge-[1-2]");
          ("queue2", "queue2-dy-c5xlarge-[1-2]");
          ("queue3", "queue3-dy-c5xlarge-[1-2]")];
  argument_ok := no_metachar;
  parse_nodename := spec_parse_nodename;
  Status := string;
  PartitionStatus := fun s =>
    if bool_decide (s ∈ ["UP"; "DOWN"; "INACTIVE"; "DRAIN"]) then Some s else None;
  local_utcoffset := fun _ => offset
|}.

(** A machine on which every external command fails (or succeeds) and
    whose local time is [offset] seconds ahead of UTC. *)
Definition machine (commands_succeed : bool) (offset : Z) : Env :=
  sample_env unit (fun _ w => (commands_succeed, w))
             (fun _ => if commands_succeed then Some EmptyString else None) offset.

(** The state of a fresh process on that machine. *)
Definition fresh (commands_succeed : bool) (offset : Z)
    : @St (machine commands_succeed offset) :=
  @mk_St (machine commands_succeed offset) tt [] None.

(** The output of the queries on a cluster of three partitions. *)
Definition cluster_output (cmd : string) : option string :=
  if Py.startswith "sudo" cmd
  then Some ("queue1" +:+ nl +:+ "UP" +:+ nl +:+ "queue2" +:+ nl +:+ "INACTIVE" +:+ nl
             +:+ "queue3" +:+ nl +:+ "UP" +:+ nl)
  else Some ("nodes-[1-2]" +:+ nl).

(** That cluster, where the outcomes of the successive update commands
    are scripted; commands beyond the script succeed. *)
Definition cluster : Env :=
  sample_env (list bool)
             (fun _ w => match w with ok :: w' => (ok, w') | [] => (true, []) end)
             cluster_output 0.

Definition cluster_start (script : list bool) : @St cluster :=
  @mk_St cluster script [] None.


(** The lines of a record, in the layout of the sample of
    [_parse_nodes_info]. *)
Definition record_lines (nodename starttime : string) : string :=
  "NodeName=" +:+ nodename +:+ nl
  +:+ "NodeAddr=1.2.3.4" +:+ nl
  +:+ "NodeHostName=" +:+ nodename +:+ nl
  +:+ "State=IDLE+CLOUD+POWER" +:+ nl
  +:+ "Partitions=compute,compute2" +:+ nl
  +:+ "SlurmdStartTime=" +:+ starttime +:+ nl.

(** The record, closed by the separator of the dump. *)
Definition record (nodename starttime : string) : string :=
  record_lines nodename starttime +:+ "######" +:+ nl.

Definition record_kwargs (nodename : string) (starttime : pyval) : gmap string pyval :=
  list_to_map
    [("name", VStr nodename); ("nodeaddr", VStr "1.2.3.4");
     ("nodehostname", VStr nodename); ("state", VStr "IDLE+CLOUD+POWER");
     ("partitions", VStr "compute,compute2"); ("slurmdstarttime", starttime)].

End Samples.


(** ** Vocabulary of the properties *)

Module Props.
Import Utils SlurmResources SlurmCommands.

(** [s] contains a comma right after a closing bracket. *)
Fixpoint has_split_point (s : string) : bool :=
  match s with
  | EmptyString => false
  | String c s' =>
      match s' with
      | String c' _ =>
          bool_decide (c = "]"%char /\ c' = ","%char) || has_split_point s'
      | EmptyString => false
      end
  end.

(** The last character of [s] is a closing bracket. *)
Fixpoint ends_with_bracket (s : string) : bool :=
  match s with
  | EmptyString => false
  | String c s' =>
      match s' with
      | EmptyString => bool_decide (c = "]"%char)
      | String _ _ => ends_with_bracket s'
      end
  end.

(** All the elements of a list but the last one. *)
Fixpoint but_last {A} (l : list A) : list A :=
  match l with
  | [] | [_] => []
  | x :: l' => x :: but_last l'
  end.

(** A split at exactly the commas that follow a closing bracket: every
    piece before a removed comma ends with the bracket, and no such
    comma is left inside a piece. *)
Definition split_after_brackets (ts : list string) : Prop :=
  ts <> []
  /\ Forall (fun t => ends_with_bracket t = true) (but_last ts)
  /\ Forall (fun t => has_split_point t = false) ts.

(** Whether the text scanned so far ends inside a bracketed range that
    is still open; [inside] is the status before [s].  Ranges do not
    nest. *)
Fixpoint open_range (inside : bool) (s : string) : bool :=
  match s with
  | EmptyString => inside
  | String c s' =>
      open_range (if bool_decide (c = "["%char) then true
                  else if bool_decide (c = "]"%char) then false
                  else inside) s'
  end.

(** The tokenizer in the words of the specification: a split on the
    commas that are not inside a bracketed range. *)
Fixpoint spec_tokenize_go (inside : bool) (s : string) : list string :=
  match s with
  | EmptyString => [EmptyString]
  | String c s' =>
      if bool_decide (c = ","%char) && negb inside
      then EmptyString :: spec_tokenize_go inside s'
      else Py.cons_head c (spec_tokenize_go (open_range inside (String c EmptyString)) s')
  end.

Definition spec_tokenize (s : string) : list string := spec_tokenize_go false s.

Fixpoint range_body (s : string) : bool :=
  match s with
  | EmptyString => false
  | String c s' =>
      if bool_decide (c = "]"%char) then bool_decide (s' = EmptyString)
      else if bool_decide (c = "["%char) then false
      else range_body s'
  end.

(** A bracketed token: a prefix, then one range between brackets, as in
    [queue1-st-c5xlarge-[1,3,4-5]]. *)
Fixpoint bracketed (s : string) : bool :=
  match s with
  | EmptyString => false
  | String c s' =>
      if bool_decide (c = "["%char) then range_body s'
      else if bool_decide (c = "]"%char) then false
      else bracketed s'
  end.

(** The least number of groups of [b] that hold [n] elements. *)
Definition ceil_div (n b : nat) : nat := ((n + b - 1) / b)%nat.

(** The tokens of the node expression of a batch. *)
Definition batch_tokens (batch : string * option string * option string) : list string :=
  Py.re_split_after_bracket batch.1.1.

(** An optional attribute is aligned with [n] nodes when it is left out
    (absent or empty) or has [n] tokens. *)
Definition aligned (n : nat) (attribute : option str_or_list) : Prop :=
  match attribute with
  | Some a => truthy attribute = true -> length (tokens a) = n
  | None => True
  end.

(** The command of a batch whose address and hostname, when given, are
    the node expression itself. *)
Definition reset_command (cmd b : string) (o : option string) : string :=
  match o with
  | Some _ =>
      if Py.truthy_str b
      then cmd +:+ " " +:+ (("nodename=" +:+ b) +:+ " nodeaddr=" +:+ b)
               +:+ " nodehostname=" +:+ b
      else cmd +:+ " " +:+ "nodename=" +:+ b
  | None => cmd +:+ " " +:+ "nodename=" +:+ b
  end.

(** The partitions whose outcome is a success. *)
Fixpoint succeeded_of (partitions : list string) (outcomes : list bool) : list string :=
  match partitions, outcomes with
  | p :: ps, ok :: oks => if ok then p :: succeeded_of ps oks else succeeded_of ps oks
  | _, _ => []
  end.

Definition is_ok {A} (r : result A) : bool :=
  match r with Ok _ => true | Raise _ => false end.

Definition commands (evs : list event) : list (string * bool) :=
  omap (fun ev => match ev with EvCmd c ok => Some (c, ok) | _ => None end) evs.

(** [m] only adds events to the trace, and its result and the events it
    adds satisfy [P], whatever the state it starts from. *)
Definition emits `{Env} {A} (m : M A) (P : result A -> list event -> Prop) : Prop :=
  forall st, exists evs, trace (m st).2 = trace st ++ evs /\ P (m st).1 evs.

(** Nothing follows a failed command, and its error is the result. *)
Definition halts_at_failure {A} (r : result A) (evs : list event) : Prop :=
  forall pre c post,
    evs = pre ++ EvCmd c false :: post -> post = [] /\ r = Raise (CommandError c).

(** No external command is run. *)
Definition silent {A} (r : result A) (evs : list event) : Prop :=
  commands evs = [].

(** [f] raises [e] in every state after adding the events [evs]. *)
Definition always_raises `{Env} {A} (f : M A) (e : exn) (evs : list event) : Prop :=
  forall st, exists st', f st = (Raise e, st') /\ trace st' = trace st ++ evs.

(** The events added to the trace between two states. *)
Definition events_since `{Env} (st st' : St) : list event :=
  drop (length (trace st)) (trace st').

(** For each partition handed to [update_partitions], whether its [try]
    block completes, in the states in which the loop runs them. *)
Fixpoint partition_outcomes `{Env} (partitions : list string) (state : string)
    (st : St) : list bool :=
  match partitions with
  | [] => []
  | partition :: rest =>
      let '(r, st') := update_partition partition state st in
      let st'' :=
        if is_ok r then st'
        else (log ERROR "Failed when setting partition %s to %s with error %s" st').2 in
      is_ok r :: partition_outcomes rest state st''
  end.

(** The reading under which a failed batch does not keep the later
    batches of [update_nodes] from running: every batch that the batcher
    produces gets its command. *)
Definition all_batches_attempted `{Env} (nodes : str_or_list)
    (nodeaddrs nodehostnames : option str_or_list) (state reason : option string)
    (raise_on_error : bool) (timeout : Z) (st : St) : Prop :=
  forall batches st1,
    _batch_node_info nodes nodeaddrs nodehostnames 100 st = (Ok batches, st1) ->
    length (commands (events_since st
              (update_nodes nodes nodeaddrs nodehostnames state reason
                            raise_on_error timeout st).2))
    = length batches.

End Props.

(** ** Vocabulary of the further properties *)

Module MoreProps.
Import Utils SlurmResources SlurmCommands SlurmQueries Props.

(** Whether an optional field of a batch is left out of the command or
    passes validation. *)
Definition field_valid `{Env} (field : option string) : bool :=
  match field with
  | Some v => if Py.truthy_str v then argument_ok v else true
  | None => true
  end.

(** Every part of a batch that goes into the command passes validation. *)
Definition batch_valid `{Env} (batch : string * option string * option string) : bool :=
  let '(nodenames, addrs, hostnames) := batch in
  argument_ok nodenames && field_valid addrs && field_valid hostnames.

(** The text that an optional field adds to the command. *)
Definition field_text (label : string) (field : option string) : string :=
  match field with
  | Some v => if Py.truthy_str v then label +:+ v else EmptyString
  | None => EmptyString
  end.

(** The command of a batch. *)
Definition batch_command (update_cmd : string)
    (batch : string * option string * option string) : string :=
  let '(nodenames, addrs, hostnames) := batch in
  update_cmd +:+ " "
  +:+ (("nodename=" +:+ nodenames) +:+ field_text " nodeaddr=" addrs)
  +:+ field_text " nodehostname=" hostnames.

(** A result that is a normal return or the rejection of an argument by
    the validator. *)
Definition returns_or_rejects `{Env} {A} (r : result A) : Prop :=
  match r with
  | Ok _ => True
  | Raise (InjectionRisk arg) => argument_ok arg = false
  | Raise _ => False
  end.

(** A node as the parser builds it: its name parses, its kind follows the
    provisioning mode, and the mandatory attributes are there. *)
Definition well_named `{Env} (node : SlurmNode) : Prop :=
  exists n q m c,
    attrs node !! "name" = Some (VStr n)
    /\ parse_nodename n = Some (q, m, c)
    /\ kind node = (if bool_decide ("st" = m) then Static else Dynamic)
    /\ has_mandatory (attrs node) = true.

(** The warnings among the events. *)
Definition warnings (evs : list event) : list string :=
  omap (fun ev => match ev with EvLog WARNING fmt => Some fmt | _ => None end) evs.

(** The records of a dump that hold at least one line. *)
Definition filled_records (dump : string) : list string :=
  filter (fun node => Py.splitlines node <> [])
         (Py.split ("######" +:+ String Py.LF EmptyString) dump).

(** The number of commas of [s] that follow a closing bracket. *)
Fixpoint count_split_points (s : string) : nat :=
  match s with
  | EmptyString => O
  | String c s' =>
      match s' with
      | String c' _ =>
          ((if bool_decide (c = "]"%char /\ c' = ","%char) then 1 else 0)
           + count_split_points s')%nat
      | EmptyString => O
      end
  end.

(** The number of occurrences of the character [c] in [s]. *)
Fixpoint occurrences (c : ascii) (s : string) : nat :=
  match s with
  | EmptyString => O
  | String a s' => ((if decide (c = a) then 1 else 0) + occurrences c s')%nat
  end.

(** The state after a [time.sleep]. *)
Definition slept `{Env} (ms : Z) (st : St) : St := (sleep ms st).2.

End MoreProps.

(** ** Further concrete environments *)

Module MoreSamples.
Import Samples.

(** A machine whose every query answers with the dump of two nodes. *)
Definition dump_machine : Env :=
  sample_env unit (fun _ w => (true, w))
             (fun _ => Some (record "queue1-st-c5xlarge-1" "None"
                             +:+ record "queue1-dy-c5xlarge-2" "Unknown")) 0.

Definition dump_start : @St dump_machine := @mk_St dump_machine tt [] None.

(** A cluster whose two partitions are both up. *)
Definition steady_cluster : Env :=
  sample_env unit (fun _ w => (true, w))
             (fun cmd =>
                if Py.startswith "sudo" cmd
                then Some ("queue1" +:+ nl +:+ "UP" +:+ nl
                           +:+ "queue3" +:+ nl +:+ "UP" +:+ nl)
                else Some ("nodes-[1-2]" +:+ nl)) 0.

Definition steady_start : @St steady_cluster := @mk_St steady_cluster tt [] None.

End MoreSamples.

Local Close Scope Z_scope.

(** * Properties *)

(** ** Strings *)

Section Strings.
Import Py Props.

(** Induction that follows the two-character look of the tokenizer. *)
Lemma string_pair_ind (P : string -> Prop) :
  P EmptyString ->
  (forall c, P (String c EmptyString)) ->
  (forall c c' s, P s -> P (String c' s) -> P (String c (String c' s))) ->
  forall s, P s.
Proof.
  intros H0 H1 H2 s.
  enough (P s /\ forall c, P (String c s)) by tauto.
  induction s as [|c' s [IH1 IH2]]; split; auto.
Qed.

Lemma re_split_at c c' s :
  c = "]"%char /\ c' = ","%char ->
  re_split_after_bracket (String c (String c' s))
  = String c EmptyString :: re_split_after_bracket s.
Proof. intros Hc. simpl. case_decide; [reflexivity | tauto]. Qed.

Lemma re_split_skip c c' s :
  ~ (c = "]"%char /\ c' = ","%char) ->
  re_split_after_bracket (String c (String c' s))
  = cons_head c (re_split_after_bracket (String c' s)).
Proof. intros Hc. simpl. case_decide; [tauto | reflexivity]. Qed.

Lemma re_split_cons c s :
  exists t ts, re_split_after_bracket (String c s) = String c t :: ts.
Proof.
  revert c. induction s as [|c' s IH]; intros c.
  - simpl. eauto.
  - destruct (decide (c = "]"%char /\ c' = ","%char)) as [Hc|Hc].
    + rewrite re_split_at by done. eauto.
    + rewrite re_split_skip by done.
      destruct (IH c') as (t & ts & ->). simpl. eauto.
Qed.

Lemma re_split_nonempty s : re_split_after_bracket s <> [].
Proof. destruct s; [done|]. destruct (re_split_cons a s) as (t & ts & ->). done. Qed.

Lemma join_cons_head sep c l :
  l <> [] -> join sep (cons_head c l) = String c (join sep l).
Proof. destruct l as [|t [|t' ts]]; done. Qed.

Lemma join_cons sep t ts :
  ts <> [] -> join sep (t :: ts) = t +:+ sep +:+ join sep ts.
Proof. destruct ts; done. Qed.

(** The pieces, joined by commas again, give the text back. *)
Lemma join_re_split s : join "," (re_split_after_bracket s) = s.
Proof.
  induction s as [|c|c c' s IH1 IH2] using string_pair_ind; [done..|].
  destruct (decide (c = "]"%char /\ c' = ","%char)) as [Hc|Hc].
  - rewrite re_split_at by done. destruct Hc as [-> ->].
    rewrite join_cons by apply re_split_nonempty. rewrite IH1. done.
  - rewrite re_split_skip by done.
    rewrite join_cons_head by apply re_split_nonempty.
    rewrite IH2. done.
Qed.

Lemma has_split_point_cons c c' s :
  has_split_point (String c (String c' s))
  = bool_decide (c = "]"%char /\ c' = ","%char) || has_split_point (String c' s).
Proof. reflexivity. Qed.

(** No piece keeps a comma that follows a closing bracket. *)
Lemma re_split_no_split_point s :
  Forall (fun t => has_split_point t = false) (re_split_after_bracket s).
Proof.
  induction s as [|c|c c' s IH1 IH2] using string_pair_ind.
  - repeat constructor.
  - repeat constructor.
  - destruct (decide (c = "]"%char /\ c' = ","%char)) as [Hc|Hc].
    + rewrite re_split_at by done. constructor; done.
    + rewrite re_split_skip by done.
      destruct (re_split_cons c' s) as (t & ts & Heq).
      rewrite Heq in IH2 |- *. simpl.
      apply Forall_cons in IH2 as [Ht Hts]. constructor; [|done].
      rewrite has_split_point_cons, Ht, orb_false_r.
      by apply bool_decide_eq_false.
Qed.

Lemma but_last_cons {A} (x y : A) l : but_last (x :: y :: l) = x :: but_last (y :: l).
Proof. reflexivity. Qed.

Lemma but_last_cons_head c t t' ts :
  but_last (cons_head c (t :: t' :: ts)) = String c t :: but_last (t' :: ts).
Proof. reflexivity. Qed.

Lemma ends_with_bracket_cons c c' s :
  ends_with_bracket (String c (String c' s)) = ends_with_bracket (String c' s).
Proof. reflexivity. Qed.

(** Every piece that precedes a removed comma ends with the bracket. *)
Lemma re_split_ends_with_bracket s :
  Forall (fun t => ends_with_bracket t = true) (but_last (re_split_after_bracket s)).
Proof.
  induction s as [|c|c c' s IH1 IH2] using string_pair_ind.
  - constructor.
  - constructor.
  - destruct (decide (c = "]"%char /\ c' = ","%char)) as [Hc|Hc].
    + rewrite re_split_at by done.
      pose proof (re_split_nonempty s) as Hne.
      destruct (re_split_after_bracket s) as [|t ts]; [done|].
      rewrite but_last_cons. constructor; [|done].
      destruct Hc as [-> _]. done.
    + rewrite re_split_skip by done.
      destruct (re_split_cons c' s) as (t & ts & Heq).
      rewrite Heq in IH2 |- *.
      destruct ts as [|t' ts]; [constructor|].
      rewrite but_last_cons_head. rewrite but_last_cons in IH2.
      apply Forall_cons in IH2 as [Ht Hts]. constructor; [|done].
      by rewrite ends_with_bracket_cons.
Qed.

Lemma re_split_spec s : split_after_brackets (re_split_after_bracket s).
Proof.
  split; [apply re_split_nonempty|].
  split; [apply re_split_ends_with_bracket | apply re_split_no_split_point].
Qed.

(** A text without split point is a single piece. *)
Lemma re_split_single t :
  has_split_point t = false -> re_split_after_bracket t = [t].
Proof.
  induction t as [|c|c c' s IH1 IH2] using string_pair_ind; [done..|].
  rewrite has_split_point_cons. intros [Hc Hs]%orb_false_iff.
  apply bool_decide_eq_false in Hc.
  rewrite re_split_skip by done. by rewrite IH2.
Qed.

Lemma app_String c s1 s2 : String c s1 +:+ s2 = String c (s1 +:+ s2).
Proof. reflexivity. Qed.

(** A piece that ends with a bracket, followed by a comma, is split off. *)
Lemma re_split_app t r :
  has_split_point t = false -> ends_with_bracket t = true ->
  re_split_after_bracket (t +:+ "," +:+ r) = t :: re_split_after_bracket r.
Proof.
  induction t as [|c|c c' s IH1 IH2] using string_pair_ind.
  - done.
  - intros _ Hc. apply bool_decide_eq_true in Hc as ->.
    change (String "]" EmptyString +:+ "," +:+ r) with (String "]" (String "," r)).
    by rewrite re_split_at.
  - rewrite has_split_point_cons, ends_with_bracket_cons.
    intros [Hc Hs]%orb_false_iff He. apply bool_decide_eq_false in Hc.
    change (String c (String c' s) +:+ "," +:+ r)
      with (String c (String c' (s +:+ "," +:+ r))).
    rewrite re_split_skip by done.
    change (String c' (s +:+ "," +:+ r)) with (String c' s +:+ "," +:+ r).
    rewrite IH2 by done. done.
Qed.

(** A split after brackets is the one the tokenizer finds. *)
Lemma re_split_join ts :
  split_after_brackets ts -> re_split_after_bracket (join "," ts) = ts.
Proof.
  intros (Hne & Hend & Hno).
  induction ts as [|t ts IH]; [done|].
  destruct ts as [|t' ts].
  - simpl. apply re_split_single. by apply Forall_cons in Hno as [? _].
  - rewrite join_cons by done. rewrite but_last_cons in Hend.
    apply Forall_cons in Hend as [Ht Hend]. apply Forall_cons in Hno as [Hn Hno].
    rewrite re_split_app by done. f_equal. by apply IH.
Qed.

Lemma open_range_ends_with_bracket i s :
  ends_with_bracket s = true -> open_range i s = false.
Proof.
  revert i. induction s as [|c|c c' s IH1 IH2] using string_pair_ind; intros i.
  - done.
  - intros ->%bool_decide_eq_true. done.
  - rewrite ends_with_bracket_cons. intros He.
    change (open_range i (String c (String c' s)))
      with (open_range (open_range i (String c EmptyString)) (String c' s)).
    by apply IH2.
Qed.

Lemma ends_with_bracket_app s t :
  t <> EmptyString -> ends_with_bracket (s +:+ t) = ends_with_bracket t.
Proof.
  intros Ht. induction s as [|c s IH]; [done|].
  rewrite app_String. destruct (s +:+ t) eqn:Hst.
  - destruct s; unfold String.append in Hst; [congruence | discriminate].
  - rewrite ends_with_bracket_cons. done.
Qed.

Lemma join_ends_with_bracket pre t :
  ends_with_bracket t = true ->
  ends_with_bracket (join "," (pre ++ [t])) = true.
Proof.
  intros Ht. induction pre as [|p pre IH]; [done|].
  change ((p :: pre) ++ [t]) with (p :: (pre ++ [t])).
  rewrite join_cons by (by destruct pre).
  rewrite !ends_with_bracket_app; [done| |].
  - intros Hj. rewrite Hj in IH. done.
  - done.
Qed.

Lemma but_last_app {A} (l1 l2 : list A) :
  l2 <> [] -> but_last (l1 ++ l2) = l1 ++ but_last l2.
Proof.
  intros Hne. induction l1 as [|x l1 IH]; [done|].
  simpl. destruct (l1 ++ l2) eqn:Happ.
  - by apply app_eq_nil in Happ as [_ ?].
  - by rewrite IH.
Qed.

Lemma bracketed_range_body s :
  range_body s = true -> has_split_point s = false /\ ends_with_bracket s = true.
Proof.
  induction s as [|c|c c' s IH1 IH2] using string_pair_ind.
  - done.
  - simpl. repeat case_bool_decide; done.
  - rewrite has_split_point_cons, ends_with_bracket_cons.
    cbn [range_body]. case_bool_decide as H1; [by rewrite bool_decide_eq_false_2|].
    case_bool_decide as H2; [done|].
    intros Hb. apply IH2 in Hb as [-> ->]. split; [|done].
    rewrite orb_false_r. apply bool_decide_eq_false. tauto.
Qed.

Lemma bracketed_split_free s :
  bracketed s = true -> has_split_point s = false /\ ends_with_bracket s = true.
Proof.
  induction s as [|c|c c' s IH1 IH2] using string_pair_ind.
  - done.
  - simpl. repeat case_bool_decide; done.
  - rewrite has_split_point_cons, ends_with_bracket_cons.
    cbn [bracketed]. case_bool_decide as H1.
    + intros Hb. apply bracketed_range_body in Hb as [-> ->]. split; [|done].
      rewrite orb_false_r. apply bool_decide_eq_false. subst c. intros [? _]; done.
    + case_bool_decide as H2; [done|].
      intros Hb. apply IH2 in Hb as [-> ->]. split; [|done].
      rewrite orb_false_r. apply bool_decide_eq_false. tauto.
Qed.

Lemma bracketed_tokens_split ts :
  ts <> [] -> Forall (fun t => bracketed t = true) ts -> split_after_brackets ts.
Proof.
  intros Hne Hall. split; [done|]. split.
  - clear Hne. induction Hall as [|t ts Ht Hts IH]; [constructor|].
    destruct ts as [|t' ts]; [constructor|]. rewrite but_last_cons.
    constructor; [|done]. by apply bracketed_split_free.
  - eapply Forall_impl; [done|]. intros t Ht. by apply bracketed_split_free.
Qed.

End Strings.

(** ** Grouping *)

Section Grouping.
Import Utils Props.
Context {A : Type}.
Implicit Types l : list A.

Lemma ceil_div_0 n : 0 < n -> ceil_div 0 n = 0.
Proof. intros Hn. unfold ceil_div. apply Nat.div_small. lia. Qed.

Lemma ceil_div_step L m : ceil_div (S L) (S m) = S (ceil_div (L - m) (S m)).
Proof.
  unfold ceil_div.
  replace (S L + S m - 1) with (L + 1 * S m) by lia.
  rewrite Nat.div_add by lia.
  destruct (decide (m <= L)) as [Hle|Hgt].
  - replace (L - m + S m - 1) with L by lia. lia.
  - replace (L - m + S m - 1) with m by lia.
    rewrite !Nat.div_small by lia. lia.
Qed.

Lemma grouper_fuel_spec fuel l n :
  0 < n -> length l <= fuel ->
  concat (grouper_fuel fuel l n) = l
  /\ Forall (fun chunk => 0 < length chunk <= n) (grouper_fuel fuel l n)
  /\ length (grouper_fuel fuel l n) = ceil_div (length l) n.
Proof.
  intros Hn. revert l. induction fuel as [|fuel IH]; intros l Hl.
  - destruct l; [|simpl in Hl; lia]. simpl. by rewrite ceil_div_0.
  - destruct l as [|x l].
    + simpl. rewrite take_nil. simpl. by rewrite ceil_div_0.
    + destruct n as [|m]; [lia|].
      cbn [grouper_fuel take drop].
      destruct (IH (drop m l)) as (Hcat & Hall & Hlen).
      { rewrite length_drop. simpl in Hl. lia. }
      split; [|split].
      * cbn [concat]. rewrite Hcat. simpl. by rewrite take_drop.
      * constructor; [|done]. simpl. rewrite length_take. lia.
      * cbn [length]. rewrite Hlen, length_drop. by rewrite ceil_div_step.
Qed.

(** The groups, in order, hold the elements of the list. *)
Lemma concat_grouper l n : 0 < n -> concat (grouper l n) = l.
Proof. intros Hn. by apply grouper_fuel_spec. Qed.

(** A group is not empty and holds at most [n] elements. *)
Lemma grouper_sizes l n :
  0 < n -> Forall (fun chunk => 0 < length chunk <= n) (grouper l n).
Proof. intros Hn. by apply grouper_fuel_spec. Qed.

Lemma length_grouper l n : 0 < n -> length (grouper l n) = ceil_div (length l) n.
Proof. intros Hn. by apply grouper_fuel_spec. Qed.

Lemma grouper_cons x l n :
  0 < n -> exists rest, grouper (x :: l) n = take n (x :: l) :: rest.
Proof.
  intros Hn. destruct n as [|m]; [lia|].
  unfold grouper. cbn [length grouper_fuel take]. eauto.
Qed.

End Grouping.

(** ** The monad *)

Section MonadLaws.
Context `{Env}.

Lemma bind_ok {A B} (m : M A) (f : A -> M B) st a st' :
  m st = (Ok a, st') -> (m ≫= f) st = f a st'.
Proof. intros Hm. unfold mbind, M_bind. by rewrite Hm. Qed.

Lemma bind_raise {A B} (m : M A) (f : A -> M B) st e st' :
  m st = (Raise e, st') -> (m ≫= f) st = (Raise e, st').
Proof. intros Hm. unfold mbind, M_bind. by rewrite Hm. Qed.

End MonadLaws.

(** ** Batching *)

Section Batching.
Import Py Utils SlurmCommands Props.
Context `{Env}.

Lemma batch_optional_absent what a B toks n st :
  truthy a = false ->
  optional_batches what a B toks n st = (Ok (replicate n None), st).
Proof. intros Ha. unfold optional_batches. destruct a; [|done]. by rewrite Ha. Qed.

Lemma batch_optional_aligned what a B toks n st :
  truthy (Some a) = true -> length (tokens a) = length toks ->
  optional_batches what (Some a) B toks n st
  = (Ok (Some <$> (join "," <$> grouper (tokens a) B)), st).
Proof.
  intros Ha Hlen. unfold optional_batches. rewrite Ha.
  unfold _batch_attribute. rewrite Hlen.
  destruct (length toks); [done|]. by rewrite Nat.eqb_refl.
Qed.

(** A given attribute whose token count differs from a non-zero node
    count is an alignment error, logged and raised. *)
Lemma batch_optional_misaligned what a B toks n st :
  truthy (Some a) = true -> toks <> [] -> length (tokens a) <> length toks ->
  optional_batches what (Some a) B toks n st
  = (Raise ValueError,
     mk_St (world st)
           (trace st ++ [EvLog ERROR ("Nodename %s and " +:+ what
                                      +:+ " %s contain different number of entries")])
           (pnm_instance st)).
Proof.
  intros Ha Hne Hlen. unfold optional_batches. rewrite Ha.
  unfold _batch_attribute. destruct toks as [|t toks]; [done|].
  cbn [length]. apply Nat.eqb_neq in Hlen. cbn [length] in Hlen. by rewrite Hlen.
Qed.

Lemma batch_optional_length what a B toks st :
  0 < B -> aligned (length toks) a ->
  exists l, optional_batches what a B toks (length (grouper toks B)) st = (Ok l, st)
            /\ length l = length (grouper toks B).
Proof.
  intros HB Ha. destruct (truthy a) eqn:Ht.
  - destruct a as [a|]; [|done]. specialize (Ha Ht).
    rewrite batch_optional_aligned by done. eexists; split; [done|].
    rewrite !length_fmap, !length_grouper by done. by rewrite Ha.
  - rewrite batch_optional_absent by done. eexists; split; [done|].
    by rewrite length_replicate.
Qed.

(** With aligned attributes the batcher returns, leaves the state alone,
    and the node expressions of its batches are the joined groups of the
    node tokens. *)
Lemma batch_node_info_aligned nodes a h B st :
  0 < B -> aligned (length (tokens nodes)) a -> aligned (length (tokens nodes)) h ->
  exists batches,
    _batch_node_info nodes a h B st = (Ok batches, st)
    /\ batches.*1.*1 = (join "," <$> grouper (tokens nodes) B).
Proof.
  intros HB Ha Hh. unfold _batch_node_info.
  set (toks := tokens nodes) in *.
  assert (length (join "," <$> grouper toks B) = length (grouper toks B)) as Hn
    by apply length_fmap.
  destruct (batch_optional_length "NodeAddr" a B toks st HB Ha) as (la & Hla & Hlena).
  destruct (batch_optional_length "NodeHostname" h B toks st HB Hh) as (lh & Hlh & Hlenh).
  eexists. split.
  - erewrite bind_ok by reflexivity.
    change (tokens (PList toks)) with toks.
    rewrite Hn. erewrite bind_ok by exact Hla. erewrite bind_ok by exact Hlh.
    reflexivity.
  - unfold zip3. rewrite !fst_zip; [done|lia|].
    rewrite length_zip_with. lia.
Qed.

(** Without attributes every batch carries its node expression only. *)
Lemma batch_node_info_plain nodes a h B st :
  truthy a = false -> truthy h = false ->
  _batch_node_info nodes a h B st
  = (Ok ((fun b => (b, None, None)) <$> (join "," <$> grouper (tokens nodes) B)), st).
Proof.
  intros Ha Hh. unfold _batch_node_info.
  erewrite bind_ok by reflexivity.
  erewrite bind_ok by (by apply batch_optional_absent).
  erewrite bind_ok by (by apply batch_optional_absent).
  unfold mret, M_ret. f_equal. f_equal.
  change (tokens (PList (tokens nodes))) with (tokens nodes).
  generalize (join "," <$> grouper (tokens nodes) B). intros l.
  unfold zip3. induction l as [|x l IH]; [done|].
  cbn [length replicate zip zip_with fmap list_fmap]. by rewrite IH.
Qed.

(** A group of bracketed tokens, joined and tokenized again, is the
    group. *)
Lemma re_split_join_bracketed chunk :
  chunk <> [] -> Forall (fun t => bracketed t = true) chunk ->
  re_split_after_bracket (join "," chunk) = chunk.
Proof. intros Hne Hall. apply re_split_join. by apply bracketed_tokens_split. Qed.

Lemma re_split_join_groups (toks : list string) B :
  0 < B -> Forall (fun t => bracketed t = true) toks ->
  re_split_after_bracket <$> (join "," <$> grouper toks B) = grouper toks B.
Proof.
  intros HB Hall.
  pose proof (grouper_sizes toks B HB) as Hsz.
  assert (Forall (Forall (fun t => bracketed t = true)) (grouper toks B)) as Hbr.
  { apply Forall_forall. intros chunk Hin. apply Forall_forall. intros t Ht.
    rewrite Forall_forall in Hall. apply Hall.
    rewrite <- (concat_grouper toks B HB). apply list_elem_of_In.
    apply in_concat. exists chunk. split; by apply list_elem_of_In. }
  induction (grouper toks B) as [|chunk gs IH]; [done|].
  apply Forall_cons in Hsz as [Hc Hsz]. apply Forall_cons in Hbr as [Hb Hbr].
  cbn [fmap list_fmap]. f_equal; [|by apply IH].
  apply re_split_join_bracketed; [|done]. destruct chunk; [simpl in Hc; lia|done].
Qed.

End Batching.

(** ** Traces *)

Section Traces.
Import Py Utils SlurmCommands Props.
Context `{Env}.

Lemma emits_impl {A} (m : M A) (P Q : result A -> list event -> Prop) :
  (forall r evs, P r evs -> Q r evs) -> emits m P -> emits m Q.
Proof. intros HPQ Hm st. destruct (Hm st) as (evs & Ht & HP). eauto. Qed.

Lemma commands_app evs1 evs2 : commands (evs1 ++ evs2) = commands evs1 ++ commands evs2.
Proof. apply omap_app. Qed.

Lemma silent_no_command evs pre c ok post :
  commands evs = [] -> evs <> pre ++ EvCmd c ok :: post.
Proof.
  intros Hs ->. rewrite commands_app in Hs. simpl in Hs.
  by apply app_eq_nil in Hs as [_ ?].
Qed.

Lemma silent_halts {A} (r : result A) evs : silent r evs -> halts_at_failure r evs.
Proof. intros Hs pre c post Heq. by apply silent_no_command in Heq. Qed.

Lemma emits_ret {A} (a : A) : emits (mret a) silent.
Proof. intros st. exists []. by rewrite app_nil_r. Qed.

Lemma emits_raise {A} e : emits (raise (A := A) e) silent.
Proof. intros st. exists []. by rewrite app_nil_r. Qed.

Lemma emits_liftR {A} (r : result A) : emits (liftR r) silent.
Proof. intros st. exists []. by rewrite app_nil_r. Qed.

Lemma emits_log lvl fmt : emits (log lvl fmt) silent.
Proof. intros st. by exists [EvLog lvl fmt]. Qed.

Lemma emits_validate arg : emits (validate_subprocess_argument arg) silent.
Proof.
  unfold validate_subprocess_argument.
  destruct (argument_ok arg); [apply emits_ret | apply emits_raise].
Qed.

Lemma emits_bind_silent {A B} (m : M A) (f : A -> M B) :
  emits m silent -> (forall a, emits (f a) silent) -> emits (m ≫= f) silent.
Proof.
  intros Hm Hf st. destruct (Hm st) as (evs1 & Ht1 & Hs1).
  unfold mbind, M_bind. destruct (m st) as [[a|e] st1]; simpl in *.
  - destruct (Hf a st1) as (evs2 & Ht2 & Hs2).
    exists (evs1 ++ evs2). rewrite Ht2, Ht1, app_assoc. split; [done|].
    unfold silent in *. by rewrite commands_app, Hs1, Hs2.
  - by exists evs1.
Qed.

Lemma emits_try_silent {A} (m : M A) handler :
  emits m silent -> (forall e h, handler e = Some h -> emits h silent) ->
  emits (try_except m handler) silent.
Proof.
  intros Hm Hh st. destruct (Hm st) as (evs1 & Ht1 & Hs1).
  unfold try_except. destruct (m st) as [[a|e] st1]; simpl in *.
  - by exists evs1.
  - destruct (handler e) as [h|] eqn:He; [|by exists evs1].
    destruct (Hh e h He st1) as (evs2 & Ht2 & Hs2).
    exists (evs1 ++ evs2). rewrite Ht2, Ht1, app_assoc. split; [done|].
    unfold silent in *. by rewrite commands_app, Hs1, Hs2.
Qed.

(** A failed command ends a sequence when each step halts at a
    failure. *)
Lemma emits_bind_halts {A B} (m : M A) (f : A -> M B) :
  emits m halts_at_failure -> (forall a, emits (f a) halts_at_failure) ->
  emits (m ≫= f) halts_at_failure.
Proof.
  intros Hm Hf st. destruct (Hm st) as (evs1 & Ht1 & Hs1).
  unfold mbind, M_bind. destruct (m st) as [[a|e] st1]; simpl in *.
  - destruct (Hf a st1) as (evs2 & Ht2 & Hs2).
    exists (evs1 ++ evs2). rewrite Ht2, Ht1, app_assoc. split; [done|].
    intros pre c post Heq.
    apply app_eq_inv in Heq as [(k & -> & Hk)|(k & -> & Hk)].
    + destruct k as [|x k].
      * simpl in Hk. by apply (Hs2 []).
      * simpl in Hk. inversion Hk; subst.
        by destruct (Hs1 pre c k).
    + by apply (Hs2 k).
  - exists evs1. split; [done|]. intros pre c post Heq.
    destruct (Hs1 pre c post Heq) as [-> Hr]. by inversion Hr.
Qed.

Lemma emits_run_command c timeout :
  emits (run_command c true timeout) halts_at_failure.
Proof.
  intros st. unfold run_command.
  destruct (run_process c timeout (world st)) as [ok w]. exists [EvCmd c ok].
  destruct ok; simpl; (split; [done|]); intros pre c' post Heq.
  - destruct pre as [|? [|]]; inversion Heq.
  - destruct pre as [|? [|]]; inversion Heq. done.
Qed.

Lemma emitsoptional_batches what a B toks n :
  emits (optional_batches what a B toks n) silent.
Proof.
  unfold optional_batches. destruct a as [a|]; [|apply emits_ret].
  destruct (truthy (Some a)); [|apply emits_ret].
  apply emits_try_silent; [apply emits_liftR|].
  intros [] h Hh; inversion Hh.
  apply emits_bind_silent; [apply emits_log | intros; apply emits_raise].
Qed.

(** The batcher runs no command. *)
Lemma emits_batch_node_info nodes a h B :
  emits (_batch_node_info nodes a h B) silent.
Proof.
  unfold _batch_node_info.
  apply emits_bind_silent; [apply emits_liftR|]. intros nb.
  apply emits_bind_silent; [apply emitsoptional_batches|]. intros ab.
  apply emits_bind_silent; [apply emitsoptional_batches|]. intros hb.
  apply emits_ret.
Qed.

Lemma emits_validated_field field value prefix :
  emits (match value with
         | Some v =>
             if truthy_str v
             then validate_subprocess_argument v ;; mret (prefix +:+ field v)
             else mret prefix
         | None => mret prefix
         end) silent.
Proof.
  destruct value as [v|]; [|apply emits_ret].
  destruct (truthy_str v); [|apply emits_ret].
  apply emits_bind_silent; [apply emits_validate | intros; apply emits_ret].
Qed.

Lemma emits_update_command state reason :
  emits (update_command state reason) silent.
Proof.
  unfold update_command.
  apply emits_bind_silent.
  - apply (emits_validated_field (fun s => " state=" +:+ s)).
  - intros cmd.
    apply (emits_validated_field (fun r => " reason=" +:+ DQUOTE +:+ r +:+ DQUOTE)).
Qed.

Lemma emits_update_batch cmd timeout batch :
  emits (update_batch cmd true timeout batch) halts_at_failure.
Proof.
  destruct batch as [[n a] h]. unfold update_batch.
  apply emits_bind_halts.
  { eapply emits_impl; [apply @silent_halts | apply emits_validate]. }
  intros _. apply emits_bind_halts.
  { eapply emits_impl; [apply @silent_halts|].
    apply (emits_validated_field (fun a => " nodeaddr=" +:+ a)). }
  intros info1. apply emits_bind_halts.
  { eapply emits_impl; [apply @silent_halts|].
    apply (emits_validated_field (fun h => " nodehostname=" +:+ h)). }
  intros info2. apply emits_run_command.
Qed.

Lemma emits_for_each_halts {A} (l : list A) (body : A -> M unit) :
  (forall x, emits (body x) halts_at_failure) ->
  emits (for_each l body) halts_at_failure.
Proof.
  intros Hbody. induction l as [|x l IH]; simpl.
  - eapply emits_impl; [apply @silent_halts | apply emits_ret].
  - apply emits_bind_halts; [apply Hbody | intros; apply IH].
Qed.

(** With [raise_on_error] set, [update_nodes] stops at the first command
    that fails. *)
Lemma emits_update_nodes nodes a h state reason timeout :
  emits (update_nodes nodes a h state reason true timeout) halts_at_failure.
Proof.
  unfold update_nodes. apply emits_bind_halts.
  { eapply emits_impl; [apply @silent_halts | apply emits_batch_node_info]. }
  intros batches. apply emits_bind_halts.
  { eapply emits_impl; [apply @silent_halts | apply emits_update_command]. }
  intros cmd. apply emits_for_each_halts. intros b. apply emits_update_batch.
Qed.

End Traces.

(** ** Node updates *)

Section NodeUpdates.
Import Py Utils SlurmCommands Props.
Context `{Env}.

Lemma for_each_fmap {A B} (g : A -> B) (l : list A) (body : B -> M unit) st :
  for_each (g <$> l) body st = for_each l (fun x => body (g x)) st.
Proof.
  revert st. induction l as [|x l IH]; intros st; [done|].
  cbn [fmap list_fmap for_each]. unfold mbind, M_bind.
  destruct (body (g x) st) as [[[]|e] st1]; [apply IH | done].
Qed.

(** An attribute that is given but empty is batched like an absent
    one. *)
Lemma batch_optional_empty what a :
  truthy (Some a) = false ->
  optional_batches what (Some a) = optional_batches what None.
Proof. intros Ha. unfold optional_batches. by rewrite Ha. Qed.

(** Without address and hostname, [update_nodes] validates and runs one
    command per group of node tokens, made of the [nodename] field
    only. *)
Lemma update_nodes_plain nodes a h state reason raise_on_error timeout st :
  truthy a = false -> truthy h = false ->
  update_nodes nodes a h state reason raise_on_error timeout st
  = (update_cmd ← update_command state reason;
     for_each (join "," <$> grouper (tokens nodes) 100) (fun nodenames =>
       validate_subprocess_argument nodenames ;;
       run_command (update_cmd +:+ " " +:+ "nodename=" +:+ nodenames)
                   raise_on_error (Some timeout))) st.
Proof.
  intros Ha Hh. unfold update_nodes.
  erewrite bind_ok by (by apply batch_node_info_plain).
  destruct (update_command state reason st) as [[cmd|e] st1] eqn:Hcmd.
  - erewrite !bind_ok by exact Hcmd. apply for_each_fmap.
  - by erewrite !bind_raise by exact Hcmd.
Qed.

(** The first batch, when the node tokens also serve as addresses and
    hostnames. *)
Lemma batch_node_info_reset nodes :
  tokens nodes <> [] ->
  exists o rest,
    (o = None \/ o = Some (join "," (take 100 (tokens nodes))))
    /\ forall st,
        _batch_node_info nodes (Some nodes) (Some nodes) 100 st
        = (Ok ((join "," (take 100 (tokens nodes)), o, o) :: rest), st).
Proof.
  intros Hne. destruct (tokens nodes) as [|t toks] eqn:Htoks; [done|].
  destruct (grouper_cons t toks 100) as (rest & Hrest); [lia|].
  destruct (truthy (Some nodes)) eqn:Ht.
  - eexists (Some _), _. split; [by right|]. intros st.
    unfold _batch_node_info. erewrite bind_ok by reflexivity.
    erewrite bind_ok by (by apply batch_optional_aligned).
    erewrite bind_ok by (by apply batch_optional_aligned).
    change (tokens (PList (tokens nodes))) with (tokens nodes).
    rewrite Htoks, Hrest. reflexivity.
  - eexists None, _. split; [by left|]. intros st.
    rewrite batch_node_info_plain by done.
    rewrite Htoks, Hrest. reflexivity.
Qed.

Lemma validate_ok arg st :
  argument_ok arg = true -> validate_subprocess_argument arg st = (Ok tt, st).
Proof. intros Ha. unfold validate_subprocess_argument. by rewrite Ha. Qed.

Lemma validate_rejected arg st :
  argument_ok arg = false ->
  validate_subprocess_argument arg st = (Raise (InjectionRisk arg), st).
Proof. intros Ha. unfold validate_subprocess_argument. by rewrite Ha. Qed.

Lemma validated_field_ok (field : string -> string) value prefix :
  (forall v, value = Some v -> argument_ok v = true) ->
  exists out, forall st,
    match value with
    | Some v =>
        if truthy_str v
        then validate_subprocess_argument v ;; mret (prefix +:+ field v)
        else mret prefix
    | None => mret prefix
    end st = (Ok out, st).
Proof.
  intros Hv. destruct value as [v|]; [|by eexists].
  destruct (truthy_str v); [|by eexists].
  eexists. intros st. by erewrite bind_ok by (by apply validate_ok; auto).
Qed.

Lemma update_command_ok state reason :
  (forall s, state = Some s -> argument_ok s = true) ->
  (forall r, reason = Some r -> argument_ok r = true) ->
  exists cmd, forall st, update_command state reason st = (Ok cmd, st).
Proof.
  intros Hs Hr. unfold update_command.
  destruct (validated_field_ok (fun s => " state=" +:+ s) state
              (SCONTROL +:+ " update") Hs) as (cmd1 & Hcmd1).
  destruct (validated_field_ok (fun r => " reason=" +:+ DQUOTE +:+ r +:+ DQUOTE)
              reason cmd1 Hr) as (cmd2 & Hcmd2).
  exists cmd2. intros st. erewrite bind_ok by apply Hcmd1. apply Hcmd2.
Qed.

Lemma run_command_fails c timeout st :
  (forall c t w, (run_process c t w).1 = false) ->
  exists w,
    run_command c true timeout st
    = (Raise (CommandError c),
       mk_St w (trace st ++ [EvCmd c false]) (pnm_instance st)).
Proof.
  intros Hfail. unfold run_command. specialize (Hfail c timeout (world st)).
  destruct (run_process c timeout (world st)) as [ok w]. simpl in Hfail.
  subst ok. by exists w.
Qed.

(** Such a batch, when valid, runs one command; when commands fail, it
    raises after that single command. *)
Lemma update_batch_fails cmd timeout b o st :
  (forall c t w, (run_process c t w).1 = false) ->
  argument_ok b = true -> (o = None \/ o = Some b) ->
  exists w,
    update_batch cmd true timeout (b, o, o) st
    = (Raise (CommandError (reset_command cmd b o)),
       mk_St w (trace st ++ [EvCmd (reset_command cmd b o) false]) (pnm_instance st)).
Proof.
  intros Hfail Hb Ho.
  destruct (run_command_fails (reset_command cmd b o) (Some timeout) st Hfail)
    as (w & Hw).
  exists w. rewrite <- Hw. unfold update_batch, reset_command.
  erewrite bind_ok by (by apply validate_ok).
  destruct Ho as [-> | ->]; [done|]. destruct (truthy_str b); [|done].
  erewrite bind_ok; [|by erewrite bind_ok by (by apply validate_ok)].
  erewrite bind_ok; [|by erewrite bind_ok by (by apply validate_ok)].
  done.
Qed.

End NodeUpdates.

(** ** Retries *)

Section Retry.
Import Py Utils SlurmCommands Props.
Context `{Env}.

Lemma sleep_trace ms st :
  exists st', sleep ms st = (Ok tt, st') /\ trace st' = trace st ++ [EvSleep ms].
Proof. by eexists. Qed.

(** Three attempts, separated by two sleeps, then the exception of the
    last attempt. *)
Lemma retry_always_raises {A} (f : M A) e evs wait st :
  always_raises f e evs ->
  exists st',
    retry 3 wait f st = (Raise e, st')
    /\ trace st' = trace st ++ evs ++ [EvSleep wait] ++ evs ++ [EvSleep wait] ++ evs.
Proof.
  intros Hf. unfold retry. cbn [Nat.pred retry_loop]. unfold try_except.
  destruct (Hf st) as (st1 & -> & Ht1).
  destruct (sleep_trace wait st1) as (st1' & Hs1 & Ht1').
  erewrite bind_ok by exact Hs1.
  destruct (Hf st1') as (st2 & -> & Ht2).
  destruct (sleep_trace wait st2) as (st2' & Hs2 & Ht2').
  erewrite bind_ok by exact Hs2.
  destruct (Hf st2') as (st3 & -> & Ht3).
  exists st3. split; [done|].
  rewrite Ht3, Ht2', Ht2, Ht1', Ht1. by rewrite <- !app_assoc.
Qed.

(** When commands fail, resetting a non-empty node list fails on its
    first batch, after one command. *)
Lemma reset_nodes_fails nodes state reason :
  (forall c t w, (run_process c t w).1 = false) ->
  tokens nodes <> [] ->
  (forall s, state = Some s -> argument_ok s = true) ->
  (forall r, reason = Some r -> argument_ok r = true) ->
  argument_ok (join "," (take 100 (tokens nodes))) = true ->
  exists c,
    always_raises (reset_nodes nodes state reason true) (CommandError c) [EvCmd c false].
Proof.
  intros Hfail Hne Hs Hr Hb.
  destruct (update_command_ok state reason Hs Hr) as (cmd & Hcmd).
  destruct (batch_node_info_reset nodes Hne) as (o & rest & Ho & Hbatch).
  exists (reset_command cmd (join "," (take 100 (tokens nodes))) o).
  intros st. unfold reset_nodes, update_nodes.
  erewrite bind_ok by apply Hbatch. erewrite bind_ok by apply Hcmd.
  cbn [for_each].
  destruct (update_batch_fails cmd DEFAULT_UPDATE_COMMAND_TIMEOUT _ o st Hfail Hb Ho)
    as (w & Hw).
  erewrite bind_raise by exact Hw. eexists. split; [done|]. done.
Qed.

End Retry.

(** ** Partitions *)

Section Partitions.
Import Py Utils SlurmCommands Props.
Context `{Env}.




(** The loop of [update_partitions] never raises and keeps the
    partitions whose [try] block completes. *)
Lemma update_partitions_loop ps state acc st :
  exists st',
    for_fold ps acc (fun succeeded_partitions partition =>
      try_except
        (update_partition partition state ;;
         mret (succeeded_partitions ++ [partition]))
        (fun e =>
           Some (log ERROR "Failed when setting partition %s to %s with error %s" ;;
                 mret succeeded_partitions))) st
    = (Ok (acc ++ succeeded_of ps (partition_outcomes ps state st)), st').
Proof.
  revert acc st. induction ps as [|p ps IH]; intros acc st.
  - exists st. simpl. by rewrite app_nil_r.
  - cbn [for_fold partition_outcomes].
    destruct (update_partition p state st) as [[[]|e] st1] eqn:Hp; simpl.
    + destruct (IH (acc ++ [p]) st1) as (st' & Hst'). exists st'.
      erewrite bind_ok.
      2:{ unfold try_except. erewrite bind_ok by exact Hp. reflexivity. }
      rewrite Hst'. by rewrite <- app_assoc.
    + destruct (IH acc (mk_St (world st1)
                  (trace st1 ++ [EvLog ERROR
                     "Failed when setting partition %s to %s with error %s"])
                  (pnm_instance st1))) as (st' & Hst').
      exists st'.
      erewrite bind_ok.
      2:{ unfold try_except. erewrite bind_raise by exact Hp. reflexivity. }
      exact Hst'.
Qed.

Lemma update_partitions_valid ps state st :
  argument_ok state = true ->
  exists st',
    update_partitions ps state st
    = (Ok (succeeded_of ps (partition_outcomes ps state st)), st').
Proof.
  intros Hs. unfold update_partitions.
  erewrite bind_ok by (by apply validate_ok).
  apply (update_partitions_loop ps state []).
Qed.

Lemma update_partitions_invalid ps state st :
  argument_ok state = false ->
  update_partitions ps state st = (Raise (InjectionRisk state), st).
Proof.
  intros Hs. unfold update_partitions.
  by erewrite bind_raise by (by apply validate_rejected).
Qed.

End Partitions.

(** ** The node dump *)

Section Parser.
Import Py Utils SlurmResources SlurmCommands Props.
Context `{Env}.

Lemma kwargs_name_lines node kwargs n :
  parse_lines ∅ (splitlines node) = Ok kwargs -> kwargs_name kwargs = Ok n ->
  splitlines node <> [].
Proof.
  intros Hk Hn Hnil. rewrite Hnil in Hk. simpl in Hk. injection Hk as <-.
  unfold kwargs_name in Hn. by rewrite lookup_empty in Hn.
Qed.

(** A record whose name parses becomes a node of the kind that the
    provisioning mode of the name selects. *)
Lemma parse_record_valid slurm_nodes node kwargs n q m c st :
  parse_lines ∅ (splitlines node) = Ok kwargs -> kwargs_name kwargs = Ok n ->
  has_mandatory kwargs = true ->
  parse_nodename n = Some (q, m, c) ->
  parse_record slurm_nodes node st
  = (Ok (slurm_nodes
         ++ [mk_node (if bool_decide ("st" = m) then Static else Dynamic) kwargs]), st).
Proof.
  intros Hk Hn Hm Hp. pose proof (kwargs_name_lines _ _ _ Hk Hn) as Hne.
  unfold parse_record. rewrite Hk. erewrite bind_ok by reflexivity.
  destruct (splitlines node); [done|].
  unfold try_except, build_node, is_static_node. rewrite Hn. cbn [mbind result_bind].
  rewrite Hp. cbn [mbind result_bind].
  unfold StaticNode, DynamicNode, new_node. rewrite Hm.
  by destruct (bool_decide ("st" = m)).
Qed.

(** A record whose name does not parse is dropped with a warning. *)
Lemma parse_record_invalid slurm_nodes node kwargs n st :
  parse_lines ∅ (splitlines node) = Ok kwargs -> kwargs_name kwargs = Ok n ->
  parse_nodename n = None ->
  parse_record slurm_nodes node st
  = (Ok slurm_nodes,
     mk_St (world st)
           (trace st ++ [EvLog WARNING "Ignoring node %s because it has an invalid name"])
           (pnm_instance st)).
Proof.
  intros Hk Hn Hp. pose proof (kwargs_name_lines _ _ _ Hk Hn) as Hne.
  unfold parse_record. rewrite Hk. erewrite bind_ok by reflexivity.
  destruct (splitlines node); [done|].
  unfold try_except, build_node, is_static_node. rewrite Hn. cbn [mbind result_bind].
  by rewrite Hp.
Qed.

Lemma parse_line_start_time kwargs :
  parse_line kwargs "SlurmdStartTime=2023-01-26T09:57:15"
  = Ok (<["slurmdstarttime" :=
            VDatetime (astimezone_utc (Datetime.mk_naive 2023 1 26 9 57 15))]> kwargs).
Proof. reflexivity. Qed.

Lemma parse_line_start_time_none kwargs :
  parse_line kwargs "SlurmdStartTime=None" = Ok (<["slurmdstarttime" := VNone]> kwargs)
  /\ parse_line kwargs "SlurmdStartTime=Unknown"
     = Ok (<["slurmdstarttime" := VNone]> kwargs).
Proof. split; reflexivity. Qed.

End Parser.

(** * The claims *)

Section Claims.
Import Py Utils SlurmResources SlurmCommands Props Samples.

(** C1, as stated, fails: on a machine where commands fail, a call with
    [raise_on_error] set and 101 node names makes two batches, raises the
    error of the first batch and never runs the command of the second. *)
Lemma update_nodes_skips_later_batches :
  let nodes := PList (replicate 101 "queue1-st-c5xlarge-1") in
  let run := @update_nodes (machine false 0) nodes None None (Some "down") None
                           true 60 (fresh false 0) in
  (exists batches,
      @_batch_node_info (machine false 0) nodes None None 100 (fresh false 0)
      = (Ok batches, fresh false 0) /\ length batches = 2)
  /\ (exists c, run.1 = Raise (CommandError c) /\ trace run.2 = [EvCmd c false])
  /\ ~ @all_batches_attempted (machine false 0) nodes None None (Some "down") None
                              true 60 (fresh false 0).
Proof.
  split; [|split].
  - eexists. split; [vm_compute; reflexivity|]. reflexivity.
  - eexists. split; vm_compute; reflexivity.
  - intros Hall. specialize (Hall _ _ eq_refl). vm_compute in Hall. discriminate.
Qed.

(** C1, amended: with [raise_on_error] set, when the command of a batch
    fails, that failure is the result of [update_nodes] and nothing is run
    after it: the failed command is the last event of the call. *)
Theorem update_nodes_stops_at_first_failure `{Env} nodes nodeaddrs nodehostnames
    state reason timeout st r st' :
  update_nodes nodes nodeaddrs nodehostnames state reason true timeout st = (r, st') ->
  exists evs,
    trace st' = trace st ++ evs
    /\ forall pre c post,
        evs = pre ++ EvCmd c false :: post ->
        post = [] /\ r = Raise (CommandError c).
Proof.
  intros Hrun.
  destruct (emits_update_nodes nodes nodeaddrs nodehostnames state reason timeout st)
    as (evs & Ht & Hh).
  rewrite Hrun in Ht, Hh. by exists evs.
Qed.

Lemma update_nodes_stops_at_first_failure_witness :
  exists evs,
    [EvCmd "sudo /opt/slurm/bin/scontrol update state=down nodename=queue1-st-c5xlarge-1"
           false]
    = [] ++ evs
    /\ forall pre c post,
        evs = pre ++ EvCmd c false :: post ->
        post = []
        /\ Raise (A := unit)
             (CommandError
                "sudo /opt/slurm/bin/scontrol update state=down nodename=queue1-st-c5xlarge-1")
           = Raise (CommandError c).
Proof.
  apply (@update_nodes_stops_at_first_failure (machine false 0)
           (PList ["queue1-st-c5xlarge-1"]) None None (Some "down") None 60
           (fresh false 0) _
           (@mk_St (machine false 0) tt
              [EvCmd "sudo /opt/slurm/bin/scontrol update state=down nodename=queue1-st-c5xlarge-1"
                     false] None)).
  reflexivity.
Defined.

(** C3, as stated, fails: a comma that follows no closing bracket is
    outside every bracketed range, yet the tokenizer does not split
    there. *)
Lemma tokenizer_keeps_plain_commas :
  re_split_after_bracket "a,b" = ["a,b"]
  /\ spec_tokenize "a,b" = ["a"; "b"]
  /\ re_split_after_bracket "a,b" <> spec_tokenize "a,b".
Proof. repeat split; [reflexivity..|discriminate]. Qed.

(** C3, amended: the tokenizer splits a string at exactly the commas that
    come right after a closing bracket: the pieces [ts] of [s] are the
    only list that gives [s] back when joined by commas, whose pieces
    before a removed comma end with the bracket, and that leaves no
    bracket-comma pair inside a piece.  ["a-[1,2],b-[3]"] becomes
    [["a-[1,2]"; "b-[3]"]], and no split falls inside an open range. *)
Theorem tokenizer_splits_after_closing_brackets :
  re_split_after_bracket "a-[1,2],b-[3]" = ["a-[1,2]"; "b-[3]"]
  /\ (forall s ts,
        re_split_after_bracket s = ts
        <-> split_after_brackets ts /\ join "," ts = s)
  /\ (forall s pre post,
        pre <> [] -> post <> [] -> re_split_after_bracket s = pre ++ post ->
        open_range false (join "," pre) = false).
Proof.
  split; [reflexivity|]. split.
  - intros s ts. split.
    + intros <-. split; [apply re_split_spec | apply join_re_split].
    + intros [Hts <-]. by apply re_split_join.
  - intros s pre post Hpre Hpost Hs.
    destruct (re_split_spec s) as (_ & Hend & _). rewrite Hs in Hend.
    rewrite but_last_app in Hend by done.
    apply Forall_app in Hend as [Hend _].
    destruct (exists_last Hpre) as (pre' & t & ->).
    apply Forall_app in Hend as [_ Ht]. apply Forall_cons in Ht as [Ht _].
    apply open_range_ends_with_bracket. by apply join_ends_with_bracket.
Qed.

Lemma tokenizer_splits_after_closing_brackets_witness :
  open_range false (join "," ["a-[1,2]"]) = false.
Proof.
  apply (proj2 (proj2 tokenizer_splits_after_closing_brackets)
           "a-[1,2],b-[3]" ["a-[1,2]"] ["b-[3]"]);
    [discriminate | discriminate | reflexivity].
Defined.

(** C5: for a node expression made of [N >= 1] bracketed tokens separated
    by commas, and a batch size [B > 0], [_batch_node_info] returns
    [ceil(N/B)] batches, the node expression of each batch holds at most
    [B] tokens, and the tokens of the batches, in order, are the tokens of
    the expression.  Address and hostname are absent, empty or aligned. *)
Theorem batches_partition_the_tokens `{Env} (toks : list string) B
    nodeaddrs nodehostnames st :
  0 < B -> toks <> [] -> Forall (fun t => bracketed t = true) toks ->
  aligned (length toks) nodeaddrs -> aligned (length toks) nodehostnames ->
  exists batches,
    _batch_node_info (PStr (join "," toks)) nodeaddrs nodehostnames B st
    = (Ok batches, st)
    /\ length batches = ceil_div (length toks) B
    /\ Forall (fun batch => length (batch_tokens batch) <= B) batches
    /\ concat (batch_tokens <$> batches) = toks.
Proof.
  intros HB Hne Hbr Ha Hh.
  assert (tokens (PStr (join "," toks)) = toks) as Htoks.
  { apply re_split_join. by apply bracketed_tokens_split. }
  destruct (batch_node_info_aligned (PStr (join "," toks)) nodeaddrs nodehostnames B st)
    as (batches & Hrun & Hnodes); [done| by rewrite Htoks..|].
  rewrite Htoks in Hnodes.
  assert (batch_tokens <$> batches = grouper toks B) as Hgroups.
  { rewrite <- (re_split_join_groups toks B HB Hbr), <- Hnodes.
    rewrite <- !list_fmap_compose. done. }
  exists batches. split; [done|]. split; [|split].
  - rewrite <- (length_fmap batch_tokens), Hgroups. by apply length_grouper.
  - apply Forall_fmap with (f := batch_tokens) (P := fun l => length l <= B).
    rewrite Hgroups. eapply Forall_impl; [by apply grouper_sizes|].
    intros chunk Hc. simpl in Hc. lia.
  - rewrite Hgroups. by apply concat_grouper.
Qed.

Lemma batches_partition_the_tokens_witness :
  exists batches,
    @_batch_node_info (machine true 0) (PStr "a-[1,2],b-[3],c-[4-6]") None None 2
                      (fresh true 0)
    = (Ok batches, fresh true 0)
    /\ length batches = ceil_div 3 2
    /\ Forall (fun batch => length (batch_tokens batch) <= 2) batches
    /\ concat (batch_tokens <$> batches) = ["a-[1,2]"; "b-[3]"; "c-[4-6]"].
Proof.
  apply (@batches_partition_the_tokens (machine true 0)
           ["a-[1,2]"; "b-[3]"; "c-[4-6]"] 2 None None (fresh true 0));
    [lia | discriminate | repeat constructor | exact I | exact I].
Defined.

(** C6: the code at the failing input.  With an empty node list the
    expected length handed to [_batch_attribute] is 0, which its guard
    [if expected_length and ...] takes for an absent one: the length of the
    address (or hostname) list is not compared, and [update_nodes] returns
    normally although the lists have 0 and 1 entries. *)
Lemma empty_node_list_skips_alignment :
  @update_nodes (machine true 0) (PList []) (Some (PList ["10.0.0.1"])) None
                (Some "down") None true 60 (fresh true 0)
  = (Ok tt, fresh true 0)
  /\ @update_nodes (machine true 0) (PList []) None (Some (PList ["host-1"]))
                   (Some "down") None true 60 (fresh true 0)
     = (Ok tt, fresh true 0).
Proof. split; reflexivity. Qed.

(** X19: for a non-empty node list, a given (non-empty) address
    list whose number of tokens differs from the number of node tokens makes
    [update_nodes] raise [ValueError] before any command is run, and so
    does a given hostname list of another length. *)
Theorem misaligned_attribute_raises_before_commands `{Env} nodes a other
    state reason raise_on_error timeout st :
  tokens nodes <> [] -> truthy (Some a) = true ->
  length (tokens a) <> length (tokens nodes) ->
  (exists st',
      update_nodes nodes (Some a) other state reason raise_on_error timeout st
      = (Raise ValueError, st')
      /\ commands (events_since st st') = [])
  /\ (exists st',
        update_nodes nodes other (Some a) state reason raise_on_error timeout st
        = (Raise ValueError, st')
        /\ commands (events_since st st') = []).
Proof.
  intros Hne Ha Hlen.
  assert (forall o, exists st',
            update_nodes nodes (Some a) o state reason raise_on_error timeout st
            = (Raise ValueError, st')
            /\ commands (events_since st st') = []) as Haddr.
  { intros o. eexists. split.
    - unfold update_nodes. erewrite bind_raise; [reflexivity|].
      unfold _batch_node_info. erewrite bind_ok by reflexivity.
      erewrite bind_raise; [reflexivity|].
      by apply batch_optional_misaligned.
    - unfold events_since. simpl. by rewrite drop_app_length. }
  split; [apply Haddr|].
  assert (aligned (length (tokens nodes)) other
          \/ exists o, other = Some o /\ truthy (Some o) = true
                       /\ length (tokens o) <> length (tokens nodes)) as [Ho|Ho].
  { destruct other as [o|]; [|by left].
    destruct (truthy (Some o)) eqn:Ht; [|left; intros ?; congruence].
    destruct (decide (length (tokens o) = length (tokens nodes))) as [Heq|Hneq].
    - left. by intros _.
    - right. eauto. }
  - eexists. split.
    + unfold update_nodes. erewrite bind_raise; [reflexivity|].
      unfold _batch_node_info. erewrite bind_ok by reflexivity.
      destruct (batch_optional_length "NodeAddr" other 100 (tokens nodes) st)
        as (la & Hla & _); [lia|done|].
      change (tokens (PList (tokens nodes))) with (tokens nodes).
      rewrite length_fmap.
      erewrite bind_ok by exact Hla.
      erewrite bind_raise; [reflexivity|].
      by apply batch_optional_misaligned.
    + unfold events_since. simpl. by rewrite drop_app_length.
  - destruct Ho as (o & -> & Ht & Hneq).
    eexists. split.
    + unfold update_nodes. erewrite bind_raise; [reflexivity|].
      unfold _batch_node_info. erewrite bind_ok by reflexivity.
      erewrite bind_raise; [reflexivity|].
      by apply batch_optional_misaligned.
    + unfold events_since. simpl. by rewrite drop_app_length.
Qed.

Lemma misaligned_attribute_raises_before_commands_witness :
  exists st',
    @update_nodes (machine true 0)
       (PStr "queue1-st-c5xlarge-[1-2],queue1-st-c5xlarge-[5-6]")
       (Some (PList ["10.0.0.1"; "10.0.0.2"; "10.0.0.3"])) None
       (Some "down") None true 60 (fresh true 0)
    = (Raise ValueError, st')
    /\ commands (events_since (fresh true 0) st') = [].
Proof.
  refine (proj1 (@misaligned_attribute_raises_before_commands (machine true 0)
                   (PStr "queue1-st-c5xlarge-[1-2],queue1-st-c5xlarge-[5-6]")
                   (PList ["10.0.0.1"; "10.0.0.2"; "10.0.0.3"]) None
                   (Some "down") None true 60 (fresh true 0) _ _ _));
    [discriminate | reflexivity | vm_compute; lia].
Defined.

(** C10: an address or a hostname argument that is an empty string or an
    empty list is treated by [update_nodes] as an absent one, whatever
    the node list: the two calls are the same computation, so no length
    is compared; and when both are left out in either way, every command
    is built from the [nodename] field alone. *)
Theorem empty_attribute_is_absent `{Env} nodes a other state reason
    raise_on_error timeout st :
  truthy (Some a) = false ->
  update_nodes nodes (Some a) other state reason raise_on_error timeout st
  = update_nodes nodes None other state reason raise_on_error timeout st
  /\ update_nodes nodes other (Some a) state reason raise_on_error timeout st
     = update_nodes nodes other None state reason raise_on_error timeout st
  /\ (truthy other = false ->
      update_nodes nodes (Some a) other state reason raise_on_error timeout st
      = (update_cmd ← update_command state reason;
         for_each (join "," <$> grouper (tokens nodes) 100) (fun nodenames =>
           validate_subprocess_argument nodenames ;;
           run_command (update_cmd +:+ " " +:+ "nodename=" +:+ nodenames)
                       raise_on_error (Some timeout))) st).
Proof.
  intros Ha. split; [|split].
  - unfold update_nodes, _batch_node_info. by rewrite batch_optional_empty.
  - unfold update_nodes, _batch_node_info. by rewrite batch_optional_empty.
  - intros Ho. by apply update_nodes_plain.
Qed.

Lemma empty_attribute_is_absent_witness :
  @update_nodes (machine true 0) (PList ["queue1-st-c5xlarge-1"; "queue1-st-c5xlarge-2"])
                (Some (PStr EmptyString)) (Some (PList [])) (Some "down") None
                true 60 (fresh true 0)
  = @update_nodes (machine true 0) (PList ["queue1-st-c5xlarge-1"; "queue1-st-c5xlarge-2"])
                  None (Some (PList [])) (Some "down") None true 60 (fresh true 0).
Proof.
  refine (proj1 (@empty_attribute_is_absent (machine true 0)
                   (PList ["queue1-st-c5xlarge-1"; "queue1-st-c5xlarge-2"])
                   (PStr EmptyString) (Some (PList [])) (Some "down") None true 60
                   (fresh true 0) _)).
  reflexivity.
Defined.

(** C8: when every command fails, [set_nodes_power_down] on a non-empty
    node list with valid arguments makes exactly three attempts, each
    running the command of the first batch, sleeps 1500 ms between two
    consecutive attempts, and raises the failure of the last one. *)
Theorem set_nodes_power_down_three_attempts `{Env} nodes reason st :
  (forall c t w, (run_process c t w).1 = false) ->
  tokens nodes <> [] ->
  argument_ok "power_down_force" = true ->
  (forall r, reason = Some r -> argument_ok r = true) ->
  argument_ok (join "," (take 100 (tokens nodes))) = true ->
  exists c st',
    set_nodes_power_down nodes reason st = (Raise (CommandError c), st')
    /\ trace st'
       = trace st ++ [EvCmd c false; EvSleep 1500; EvCmd c false;
                      EvSleep 1500; EvCmd c false].
Proof.
  intros Hfail Hne Hstate Hreason Hbatch.
  destruct (reset_nodes_fails nodes (Some "power_down_force") reason)
    as (c & Hc); try done.
  { intros s [= <-]. done. }
  destruct (retry_always_raises _ _ _ 1500%Z st Hc) as (st' & Hrun & Ht).
  exists c, st'. split; [exact Hrun|]. exact Ht.
Qed.

Lemma set_nodes_power_down_three_attempts_witness :
  exists c st',
    @set_nodes_power_down (machine false 0) (PStr "queue1-st-c5xlarge-[1-2]")
                          (Some "stopping cluster") (fresh false 0)
    = (Raise (CommandError c), st')
    /\ trace st'
       = [] ++ [EvCmd c false; EvSleep 1500; EvCmd c false;
                EvSleep 1500; EvCmd c false].
Proof.
  apply (@set_nodes_power_down_three_attempts (machine false 0)
           (PStr "queue1-st-c5xlarge-[1-2]") (Some "stopping cluster") (fresh false 0)).
  - intros c t w. reflexivity.
  - discriminate.
  - reflexivity.
  - intros r [= <-]. reflexivity.
  - reflexivity.
Defined.

(** C4, as stated, fails: a state that the validator rejects makes
    [update_partitions] raise, before the loop over the partitions. *)
Lemma update_partitions_raises_on_rejected_state :
  @update_partitions (machine true 0) ["queue1"] "UP;reboot" (fresh true 0)
  = (Raise (InjectionRisk "UP;reboot"), fresh true 0).
Proof. reflexivity. Qed.

(** C4, amended: when the state argument passes validation,
    [update_partitions] returns, without raising, the partitions whose
    validation and command both succeeded, in order, and leaves the
    others out; when the state argument is rejected, the rejection
    propagates before any command is run. *)
Theorem update_partitions_returns_succeeded `{Env} partitions state st :
  (argument_ok state = true ->
   exists st',
     update_partitions partitions state st
     = (Ok (succeeded_of partitions (partition_outcomes partitions state st)), st'))
  /\ (argument_ok state = false ->
      update_partitions partitions state st = (Raise (InjectionRisk state), st)).
Proof.
  split; intros Hs.
  - by apply update_partitions_valid.
  - by apply update_partitions_invalid.
Qed.

Lemma update_partitions_returns_succeeded_witness :
  exists st',
    @update_partitions cluster ["queue1"; "queue3"] "INACTIVE"
                       (cluster_start [true; false])
    = (Ok ["queue1"], st').
Proof.
  refine (proj1 (@update_partitions_returns_succeeded cluster ["queue1"; "queue3"]
                   "INACTIVE" (cluster_start [true; false])) _).
  reflexivity.
Defined.



(** C2, as stated, fails: on a machine whose local time is one hour
    ahead of UTC, the record with [SlurmdStartTime=2023-01-26T09:57:15]
    gives the node the timestamp 2023-01-26T08:57:15+00:00. *)
Lemma start_time_depends_on_local_zone :
  exists node,
    @_parse_nodes_info (machine true 3600)
       (record "queue1-st-c5xlarge-1" "2023-01-26T09:57:15") (fresh true 3600)
    = (Ok [node], fresh true 3600)
    /\ attrs node !! "slurmdstarttime"
       = Some (VDatetime (Datetime.utc 2023 1 26 8 57 15))
    /\ attrs node !! "slurmdstarttime"
       <> Some (VDatetime (Datetime.utc 2023 1 26 9 57 15)).
Proof.
  eexists. split; [vm_compute; reflexivity|].
  split; [vm_compute; reflexivity | vm_compute; discriminate].
Qed.

(** C2, amended: the line [SlurmdStartTime=2023-01-26T09:57:15] sets
    [slurmdstarttime] to the UTC timestamp of 2023-01-26T09:57:15 read as
    local time of the system, which is 2023-01-26T09:57:15+00:00 when the
    local zone has no offset from UTC at that time; the values [None] and
    [Unknown] set the field to [None].  So do whole records of the dump
    on a machine whose local time is UTC. *)
Theorem start_time_is_local_time_in_utc `{Env} kwargs :
  let local := Datetime.mk_naive 2023 1 26 9 57 15 in
  parse_line kwargs "SlurmdStartTime=2023-01-26T09:57:15"
  = Ok (<["slurmdstarttime" :=
            VDatetime (Datetime.utc 2023 1 26 9 57 15 - local_utcoffset local)]> kwargs)
  /\ (local_utcoffset local = 0%Z ->
      parse_line kwargs "SlurmdStartTime=2023-01-26T09:57:15"
      = Ok (<["slurmdstarttime" := VDatetime (Datetime.utc 2023 1 26 9 57 15)]> kwargs))
  /\ parse_line kwargs "SlurmdStartTime=None" = Ok (<["slurmdstarttime" := VNone]> kwargs)
  /\ parse_line kwargs "SlurmdStartTime=Unknown"
     = Ok (<["slurmdstarttime" := VNone]> kwargs)
  /\ (forall starttime,
        starttime ∈ ["None"; "Unknown"] ->
        @_parse_nodes_info (machine true 0)
           (record "queue1-st-c5xlarge-1" "2023-01-26T09:57:15"
            +:+ record "queue1-dy-c5xlarge-2" starttime)
           (fresh true 0)
        = (Ok [mk_node Static
                 (record_kwargs "queue1-st-c5xlarge-1"
                    (VDatetime (Datetime.utc 2023 1 26 9 57 15)));
               mk_node Dynamic (record_kwargs "queue1-dy-c5xlarge-2" VNone)],
           fresh true 0)).
Proof.
  intros local. split; [apply parse_line_start_time|].
  split.
  - intros Hutc. rewrite parse_line_start_time. unfold astimezone_utc.
    fold local. rewrite Hutc. by rewrite Z.sub_0_r.
  - split; [apply parse_line_start_time_none|].
    split; [apply parse_line_start_time_none|].
    intros starttime Hin.
    apply elem_of_cons in Hin as [->|Hin];
      [|apply list_elem_of_singleton in Hin as ->];
      vm_compute; reflexivity.
Qed.

Lemma start_time_is_local_time_in_utc_witness :
  @parse_line (machine true 0) ∅ "SlurmdStartTime=2023-01-26T09:57:15"
  = Ok (<["slurmdstarttime" := VDatetime (Datetime.utc 2023 1 26 9 57 15)]> ∅).
Proof.
  refine (proj1 (proj2 (@start_time_is_local_time_in_utc (machine true 0) ∅)) _).
  reflexivity.
Defined.

(** C9: a record of the dump whose lines parse and that has the mandatory
    attributes becomes a [StaticNode] when the provisioning mode of its
    name is [st] and a [DynamicNode] when it is [dy]; a record whose name
    does not parse is left out of the list with a warning, and nothing is
    raised.  With the grammar [{queue}-{st|dy}-{instancetype}-{number}],
    [queue1-st-c5xlarge-3] is static, [queue1-dy-c5xlarge-3] is dynamic,
    and a record named [queue1-c5xlarge] is dropped. *)
Theorem nodes_are_classified_by_name :
  (forall `{Env} slurm_nodes node kwargs n st,
      parse_lines ∅ (splitlines node) = Ok kwargs ->
      kwargs_name kwargs = Ok n ->
      has_mandatory kwargs = true ->
      (forall q c, parse_nodename n = Some (q, "st", c) ->
         parse_record slurm_nodes node st
         = (Ok (slurm_nodes ++ [mk_node Static kwargs]), st))
      /\ (forall q c, parse_nodename n = Some (q, "dy", c) ->
            parse_record slurm_nodes node st
            = (Ok (slurm_nodes ++ [mk_node Dynamic kwargs]), st))
      /\ (parse_nodename n = None ->
          parse_record slurm_nodes node st
          = (Ok slurm_nodes,
             mk_St (world st)
                   (trace st ++ [EvLog WARNING
                                   "Ignoring node %s because it has an invalid name"])
                   (pnm_instance st))))
  /\ spec_parse_nodename "queue1-st-c5xlarge-3" = Some ("queue1", "st", "c5xlarge")
  /\ spec_parse_nodename "queue1-dy-c5xlarge-3" = Some ("queue1", "dy", "c5xlarge")
  /\ spec_parse_nodename "queue1-c5xlarge" = None
  /\ @_parse_nodes_info (machine true 0)
       (record "queue1-st-c5xlarge-3" "None" +:+ record "queue1-c5xlarge" "None"
        +:+ record "queue1-dy-c5xlarge-3" "None")
       (fresh true 0)
     = (Ok [mk_node Static (record_kwargs "queue1-st-c5xlarge-3" VNone);
            mk_node Dynamic (record_kwargs "queue1-dy-c5xlarge-3" VNone)],
        @mk_St (machine true 0) tt
          [EvLog WARNING "Ignoring node %s because it has an invalid name"] None).
Proof.
  split.
  - intros E slurm_nodes node kwargs n st Hk Hn Hm. split; [|split].
    + intros q c Hp. by rewrite (parse_record_valid _ _ _ _ _ _ _ _ Hk Hn Hm Hp).
    + intros q c Hp. by rewrite (parse_record_valid _ _ _ _ _ _ _ _ Hk Hn Hm Hp).
    + intros Hp. by apply (parse_record_invalid _ _ _ _ _ Hk Hn Hp).
  - repeat split; vm_compute; reflexivity.
Qed.

Lemma nodes_are_classified_by_name_witness :
  @parse_record (machine true 0) [] (record_lines "queue1-st-c5xlarge-3" "None")
                (fresh true 0)
  = (Ok ([] ++ [mk_node Static (record_kwargs "queue1-st-c5xlarge-3" VNone)]),
     fresh true 0).
Proof.
  refine (proj1 (proj1 nodes_are_classified_by_name (machine true 0) []
                   (record_lines "queue1-st-c5xlarge-3" "None")
                   (record_kwargs "queue1-st-c5xlarge-3" VNone)
                   "queue1-st-c5xlarge-3" (fresh true 0) _ _ _)
                "queue1" "c5xlarge" _);
    vm_compute; reflexivity.
Defined.

End Claims.

(** * Further properties *)

(** ** Commands of a batch *)

Section BatchCommands.
Import Py Utils SlurmCommands Props MoreProps.
Context `{Env}.

Lemma bind_cases {A B} (m : M A) (f : A -> M B) st r st' :
  (m ≫= f) st = (r, st') ->
  (exists a st1, m st = (Ok a, st1) /\ f a st1 = (r, st'))
  \/ (exists e, m st = (Raise e, st') /\ r = Raise e).
Proof.
  unfold mbind, M_bind. destruct (m st) as [[a|e] st1]; intros Hr.
  - left. eauto.
  - right. inversion Hr. eauto.
Qed.

Lemma append_empty_r s : s +:+ EmptyString = s.
Proof. induction s as [|c s IH]; [done|]. rewrite app_String. by rewrite IH. Qed.

(** The optional field of a batch: validated when it goes into the
    command, left out otherwise. *)
Lemma batch_field_valid label field info st :
  field_valid field = true ->
  match field with
  | Some v =>
      if truthy_str v
      then validate_subprocess_argument v ;; mret (info +:+ label +:+ v)
      else mret info
  | None => mret info
  end st = (Ok (info +:+ field_text label field), st).
Proof.
  intros Hv. destruct field as [v|]; simpl in *.
  - destruct (truthy_str v).
    + by erewrite bind_ok by (by apply validate_ok).
    + by rewrite append_empty_r.
  - by rewrite append_empty_r.
Qed.

Lemma batch_field_invalid label field info st :
  field_valid field = false ->
  exists arg,
    argument_ok arg = false
    /\ match field with
       | Some v =>
           if truthy_str v
           then validate_subprocess_argument v ;; mret (info +:+ label +:+ v)
           else mret info
       | None => mret info
       end st = (Raise (InjectionRisk arg), st).
Proof.
  intros Hv. destruct field as [v|]; simpl in *; [|done].
  destruct (truthy_str v); [|done].
  exists v. split; [done|]. by erewrite bind_raise by (by apply validate_rejected).
Qed.

(** A batch whose parts pass validation runs its command, and nothing
    else. *)
Lemma update_batch_valid cmd raise_on_error timeout batch st :
  batch_valid batch = true ->
  update_batch cmd raise_on_error timeout batch st
  = run_command (batch_command cmd batch) raise_on_error (Some timeout) st.
Proof.
  destruct batch as [[n a] h]. unfold batch_valid.
  intros [[Hn Ha]%andb_true_iff Hh]%andb_true_iff.
  unfold update_batch, batch_command.
  erewrite bind_ok by (by apply validate_ok).
  erewrite bind_ok by (by apply (batch_field_valid " nodeaddr=")).
  erewrite bind_ok by (by apply (batch_field_valid " nodehostname=")).
  done.
Qed.

(** A batch with a rejected part raises before its command is run. *)
Lemma update_batch_invalid cmd raise_on_error timeout batch st :
  batch_valid batch = false ->
  exists arg,
    argument_ok arg = false
    /\ update_batch cmd raise_on_error timeout batch st = (Raise (InjectionRisk arg), st).
Proof.
  destruct batch as [[n a] h]. unfold batch_valid, update_batch. intros Hv.
  destruct (argument_ok n) eqn:Hn.
  - erewrite bind_ok by (by apply validate_ok).
    destruct (field_valid a) eqn:Ha.
    + erewrite bind_ok by (by apply (batch_field_valid " nodeaddr=")).
      destruct (field_valid h) eqn:Hh; [done|].
      destruct (batch_field_invalid " nodehostname=" h
                  (("nodename=" +:+ n) +:+ field_text " nodeaddr=" a) st Hh)
        as (arg & Harg & Hrun).
      exists arg. split; [done|]. by erewrite bind_raise by exact Hrun.
    + destruct (batch_field_invalid " nodeaddr=" a ("nodename=" +:+ n) st Ha)
        as (arg & Harg & Hrun).
      exists arg. split; [done|]. by erewrite bind_raise by exact Hrun.
  - exists n. split; [done|]. by erewrite bind_raise by (by apply validate_rejected).
Qed.

Lemma run_command_trace c raise_on_error timeout st :
  exists ok st',
    trace st' = trace st ++ [EvCmd c ok]
    /\ run_command c raise_on_error timeout st
       = (if ok || negb raise_on_error then Ok tt else Raise (CommandError c), st').
Proof.
  unfold run_command. destruct (run_process c timeout (world st)) as [ok w].
  exists ok. eexists. split; [|by destruct ok, raise_on_error]. done.
Qed.

(** The batcher and the command builder leave the state alone when they
    return. *)
Lemma optional_batches_ok what a B toks n st l st' :
  optional_batches what a B toks n st = (Ok l, st') -> st' = st.
Proof.
  unfold optional_batches. destruct a as [a|]; [|by intros [= _ <-]].
  destruct (truthy (Some a)); [|by intros [= _ <-]].
  unfold try_except, liftR.
  destruct (fmap Some <$> _batch_attribute a B (Some (length toks))) as [x|[]];
    by intros [= _ <-].
Qed.




End BatchCommands.

(** ** Updates that do not raise *)

Section QuietUpdates.
Import Py Utils SlurmCommands Props MoreProps.
Context `{Env}.

Lemma for_each_batches_quiet cmd timeout batches st :
  Forall (fun b => batch_valid b = true) batches ->
  exists st' evs,
    for_each batches (update_batch cmd false timeout) st = (Ok tt, st')
    /\ trace st' = trace st ++ evs
    /\ (commands evs).*1 = (batch_command cmd <$> batches)
    /\ length evs = length batches.
Proof.
  intros Hall. revert st. induction Hall as [|b batches Hb Hall IH]; intros st.
  - exists st, []. by rewrite app_nil_r.
  - destruct (run_command_trace (batch_command cmd b) false (Some timeout) st)
      as (ok & st1 & Ht1 & Hrun).
    rewrite orb_true_r in Hrun.
    destruct (IH st1) as (st' & evs & Hloop & Ht & Hc & Hlen).
    exists st', (EvCmd (batch_command cmd b) ok :: evs). split; [|split; [|split]].
    + cbn [for_each]. erewrite bind_ok; [exact Hloop|].
      by rewrite update_batch_valid.
    + rewrite Ht, Ht1. by rewrite <- app_assoc.
    + cbn. by rewrite <- Hc.
    + simpl. by rewrite Hlen.
Qed.

(** X1: with [raise_on_error] unset, [update_nodes] runs the command of
    every batch, in the order of the batcher, whatever their outcomes, and
    returns normally: a failed batch is swallowed.  The batches are those of
    [_batch_node_info], the arguments pass validation. *)
Theorem update_nodes_quiet_runs_every_batch nodes nodeaddrs nodehostnames
    state reason timeout st batches cmd :
  _batch_node_info nodes nodeaddrs nodehostnames 100 st = (Ok batches, st) ->
  update_command state reason st = (Ok cmd, st) ->
  Forall (fun b => batch_valid b = true) batches ->
  exists st' evs,
    update_nodes nodes nodeaddrs nodehostnames state reason false timeout st
    = (Ok tt, st')
    /\ trace st' = trace st ++ evs
    /\ (commands evs).*1 = (batch_command cmd <$> batches)
    /\ length evs = length batches.
Proof.
  intros Hb Hc Hall.
  destruct (for_each_batches_quiet cmd timeout batches st Hall)
    as (st' & evs & Hloop & Ht & Hcmds & Hlen).
  exists st', evs. split; [|done].
  unfold update_nodes. erewrite bind_ok by exact Hb.
  by erewrite bind_ok by exact Hc.
Qed.

(** A result of the quiet paths: a return or a rejected argument. *)
Lemma returns_or_rejects_bind {A B} (m : M A) (f : A -> M B) st :
  returns_or_rejects (m st).1 ->
  (forall a st1, returns_or_rejects (f a st1).1) ->
  returns_or_rejects ((m ≫= f) st).1.
Proof.
  intros Hm Hf. unfold mbind, M_bind.
  destruct (m st) as [[a|e] st1]; simpl in *; [apply Hf | done].
Qed.

Lemma returns_or_rejects_validate arg st :
  returns_or_rejects (validate_subprocess_argument arg st).1.
Proof.
  unfold validate_subprocess_argument. by destruct (argument_ok arg) eqn:Ha.
Qed.

Lemma returns_or_rejects_update_command state reason st :
  returns_or_rejects (update_command state reason st).1.
Proof.
  unfold update_command.
  assert (forall (field : string -> string) value prefix st1,
            returns_or_rejects
              (match value with
               | Some v =>
                   if truthy_str v
                   then validate_subprocess_argument v ;; mret (prefix +:+ field v)
                   else mret prefix
               | None => mret prefix
               end st1).1) as Hfield.
  { intros field [v|] prefix st1; [|done]. destruct (truthy_str v); [|done].
    apply returns_or_rejects_bind; [apply returns_or_rejects_validate | done]. }
  apply returns_or_rejects_bind; [apply (Hfield (fun s => " state=" +:+ s))|].
  intros cmd st1. apply (Hfield (fun r => " reason=" +:+ DQUOTE +:+ r +:+ DQUOTE)).
Qed.

Lemma returns_or_rejects_update_batch cmd timeout batch st :
  returns_or_rejects (update_batch cmd false timeout batch st).1.
Proof.
  destruct (batch_valid batch) eqn:Hv.
  - rewrite update_batch_valid by done.
    destruct (run_command_trace (batch_command cmd batch) false (Some timeout) st)
      as (ok & st' & _ & ->). by rewrite orb_true_r.
  - destruct (update_batch_invalid cmd false timeout batch st Hv) as (arg & Ha & ->).
    done.
Qed.

Lemma returns_or_rejects_for_each cmd timeout batches st :
  returns_or_rejects (for_each batches (update_batch cmd false timeout) st).1.
Proof.
  revert st. induction batches as [|b batches IH]; intros st; [done|].
  cbn [for_each]. apply returns_or_rejects_bind.
  - apply returns_or_rejects_update_batch.
  - intros _ st1. apply IH.
Qed.

(** With [raise_on_error] unset, [update_nodes] raises only for an
    alignment error of the batcher or a rejected argument. *)
Lemma update_nodes_quiet_results nodes a h state reason timeout st batches st1 :
  _batch_node_info nodes a h 100 st = (Ok batches, st1) ->
  returns_or_rejects (update_nodes nodes a h state reason false timeout st).1.
Proof.
  intros Hb. unfold update_nodes. erewrite bind_ok by exact Hb.
  apply returns_or_rejects_bind; [apply returns_or_rejects_update_command|].
  intros cmd st2. apply returns_or_rejects_for_each.
Qed.

(** X2: [set_nodes_idle] never raises because a command failed, nor for
    an alignment error: it returns, or an argument is rejected by the
    validator before its command is run. *)
Theorem set_nodes_idle_swallows_command_failures nodes reason
    reset_node_addrs_hostname st :
  returns_or_rejects (set_nodes_idle nodes reason reset_node_addrs_hostname st).1.
Proof.
  unfold set_nodes_idle. destruct reset_node_addrs_hostname.
  - unfold reset_nodes.
    destruct (batch_node_info_aligned nodes (Some nodes) (Some nodes) 100 st)
      as (batches & Hb & _); [lia| by intros _ ..|].
    by eapply update_nodes_quiet_results.
  - eapply update_nodes_quiet_results. by apply batch_node_info_plain.
Qed.

End QuietUpdates.

Section QuietUpdatesWitnesses.
Import Py Utils SlurmCommands Props MoreProps Samples.

Lemma update_nodes_quiet_runs_every_batch_witness :
  exists st' evs,
    @update_nodes (machine false 0) (PStr "a-[1,2],b-[3]")
                  (Some (PList ["10.0.0.1"; "10.0.0.2"])) None (Some "down") None
                  false 60 (fresh false 0)
    = (Ok tt, st')
    /\ trace st' = [] ++ evs
    /\ (commands evs).*1
       = (@batch_command "sudo /opt/slurm/bin/scontrol update state=down"
          <$> [("a-[1,2],b-[3]", Some "10.0.0.1,10.0.0.2", None)])
    /\ length evs = 1.
Proof.
  apply (@update_nodes_quiet_runs_every_batch (machine false 0)
           (PStr "a-[1,2],b-[3]") (Some (PList ["10.0.0.1"; "10.0.0.2"])) None
           (Some "down") None 60 (fresh false 0)
           [("a-[1,2],b-[3]", Some "10.0.0.1,10.0.0.2", None)]
           "sudo /opt/slurm/bin/scontrol update state=down");
    [reflexivity | reflexivity | repeat constructor].
Defined.

End QuietUpdatesWitnesses.

(** ** Validation before execution *)

Section Validated.
Import Py Utils SlurmCommands Props MoreProps.
Context `{Env}.





End Validated.

Section ValidatedWitnesses.
Import Py Utils SlurmCommands Props MoreProps Samples.


End ValidatedWitnesses.

(** ** More on tokens and batches *)

Section MoreBatching.
Import Py Utils SlurmCommands Props MoreProps.
Context `{Env}.

Lemma append_assoc s1 s2 s3 : (s1 +:+ s2) +:+ s3 = s1 +:+ s2 +:+ s3.
Proof. induction s1 as [|c s1 IH]; [done|]. rewrite !app_String. by rewrite IH. Qed.

Lemma join_app sep (l1 l2 : list string) :
  l1 <> [] -> l2 <> [] ->
  join sep (l1 ++ l2) = join sep l1 +:+ sep +:+ join sep l2.
Proof.
  intros H1 H2. induction l1 as [|t l1 IH]; [done|].
  destruct l1 as [|t' l1].
  - simpl. by destruct l2.
  - change ((t :: t' :: l1) ++ l2) with (t :: ((t' :: l1) ++ l2)).
    rewrite join_cons by done. rewrite IH by done.
    rewrite (join_cons sep t (t' :: l1)) by done.
    by rewrite !append_assoc.
Qed.

(** Joining the joined groups is joining the whole list. *)
Lemma join_groups sep (groups : list (list string)) :
  Forall (fun g => g <> []) groups ->
  join sep (join sep <$> groups) = join sep (concat groups).
Proof.
  induction 1 as [|g groups Hg Hall IH]; [done|].
  destruct groups as [|g' groups].
  - simpl. by rewrite app_nil_r.
  - cbn [fmap list_fmap concat] in *. rewrite join_cons by done.
    rewrite IH. rewrite (join_app sep g (g' ++ concat groups)); [done|done|].
    apply Forall_cons in Hall as [Hg' _]. by destruct g'.
Qed.

Lemma optional_batches_length what a B toks st l st' :
  0 < B ->
  optional_batches what a B toks (length (grouper toks B)) st = (Ok l, st') ->
  length (grouper toks B) <= length l.
Proof.
  intros HB. unfold optional_batches.
  destruct a as [a|]; [|intros [= <- _]; by rewrite length_replicate].
  destruct (truthy (Some a)); [|intros [= <- _]; by rewrite length_replicate].
  unfold try_except, liftR, _batch_attribute.
  destruct toks as [|t toks]; [simpl; lia|].
  cbn [length]. destruct (length (tokens a) =? S (length toks)) eqn:Heq; simpl.
  - intros [= <- _]. apply Nat.eqb_eq in Heq.
    rewrite !length_fmap, !length_grouper by done. by rewrite Heq.
  - intros [=].
Qed.

(** The node expressions of the batches are the joined groups of the node
    tokens, whenever the batcher returns. *)
Lemma batch_node_info_nodes nodes a h B st batches st' :
  0 < B ->
  _batch_node_info nodes a h B st = (Ok batches, st') ->
  batches.*1.*1 = (join "," <$> grouper (tokens nodes) B).
Proof.
  intros HB Hrun. unfold _batch_node_info in Hrun.
  apply bind_cases in Hrun as [(nb & st1 & Hnb & Hrun)|(e & _ & [=])].
  injection Hnb as <- <-. change (tokens (PList (tokens nodes))) with (tokens nodes) in *.
  rewrite length_fmap in Hrun.
  apply bind_cases in Hrun as [(ab & st2 & Hab & Hrun)|(e & _ & [=])].
  pose proof (optional_batches_ok _ _ _ _ _ _ _ _ Hab) as ->.
  apply bind_cases in Hrun as [(hb & st3 & Hhb & Hrun)|(e & _ & [=])].
  injection Hrun as <- _.
  apply optional_batches_length in Hab; [|done].
  apply optional_batches_length in Hhb; [|done].
  unfold zip3. rewrite !fst_zip; [done| |].
  - by rewrite length_fmap.
  - rewrite length_zip_with, length_fmap. lia.
Qed.

(** X4: whenever the batcher returns for a string of nodes, joining the
    node expressions of its batches by commas gives the string back: no node
    is lost, added or reordered, whatever the string. *)
Theorem batches_rejoin_to_the_input s nodeaddrs nodehostnames B st batches st' :
  0 < B ->
  _batch_node_info (PStr s) nodeaddrs nodehostnames B st = (Ok batches, st') ->
  join "," (batches.*1.*1) = s.
Proof.
  intros HB Hrun. rewrite (batch_node_info_nodes _ _ _ _ _ _ _ HB Hrun).
  rewrite join_groups.
  - rewrite concat_grouper by done. apply join_re_split.
  - eapply Forall_impl; [by apply grouper_sizes|].
    intros g Hg ->. simpl in Hg. lia.
Qed.

Lemma grouper_fuel_S {A} fuel (l : list A) n :
  grouper_fuel (S fuel) l n
  = match take n l with
    | [] => []
    | chunk => chunk :: grouper_fuel fuel (drop n l) n
    end.
Proof. reflexivity. Qed.

Lemma grouper_fuel_zip {A B} fuel (l : list A) (k : list B) n :
  length k = length l ->
  grouper_fuel fuel (zip l k) n
  = zip_with zip (grouper_fuel fuel l n) (grouper_fuel fuel k n).
Proof.
  revert l k. induction fuel as [|fuel IH]; intros l k Hlen; [done|].
  rewrite !grouper_fuel_S. rewrite zip_with_take, zip_with_drop.
  destruct n as [|n]; [done|].
  destruct l as [|x l], k as [|y k]; try done.
  cbn [take zip_with drop]. f_equal.
  apply IH. rewrite !length_drop. simpl in Hlen. lia.
Qed.

(** X5: grouping keeps the lists aligned.  For node and address lists of
    the same length, the batches pair the groups of nodes with the groups of
    addresses of the same rank, and grouping the list of (node, address)
    pairs is pairing the groups: a node and its address sit at the same
    place of the same batch. *)
Theorem batches_keep_pairs_together (l k : list string) B st :
  0 < B -> l <> [] -> length k = length l ->
  _batch_node_info (PList l) (Some (PList k)) None B st
  = (Ok (zip3 (join "," <$> grouper l B)
              (Some <$> (join "," <$> grouper k B))
              (replicate (length (grouper l B)) None)), st)
  /\ grouper (zip l k) B = zip_with zip (grouper l B) (grouper k B)
  /\ length (grouper k B) = length (grouper l B).
Proof.
  intros HB Hl Hlen. split; [|split].
  - unfold _batch_node_info. erewrite bind_ok by reflexivity.
    erewrite bind_ok.
    2:{ apply batch_optional_aligned; [|exact Hlen]. destruct k; [by destruct l|done]. }
    erewrite bind_ok by (by apply batch_optional_absent).
    change (tokens (PList l)) with l. change (tokens (PList k)) with k.
    by rewrite length_fmap.
  - unfold grouper. rewrite length_zip_with, Hlen, Nat.min_id.
    by apply grouper_fuel_zip.
  - rewrite !length_grouper by done. by rewrite Hlen.
Qed.

Lemma zip3_self (l : list string) :
  zip3 l (Some <$> l) (Some <$> l) = (fun b => (b, Some b, Some b)) <$> l.
Proof. unfold zip3. induction l as [|x l IH]; [done|]. cbn. by rewrite <- IH. Qed.

(** X6: [reset_nodes] cannot hit an alignment error, and each of its
    batches carries its own node expression as address and as hostname
    (or neither of them, when the node argument is an empty string or
    list). *)
Theorem reset_batches_repeat_the_nodes nodes st :
  exists batches,
    _batch_node_info nodes (Some nodes) (Some nodes) 100 st = (Ok batches, st)
    /\ Forall (fun b => b.2 = b.1.2
                        /\ (b.1.2 = Some b.1.1
                            \/ (b.1.2 = None /\ truthy (Some nodes) = false)))
              batches.
Proof.
  destruct (truthy (Some nodes)) eqn:Ht.
  - eexists. split.
    + unfold _batch_node_info. erewrite bind_ok by reflexivity.
      erewrite bind_ok by (by apply batch_optional_aligned).
      erewrite bind_ok by (by apply batch_optional_aligned).
      unfold mret, M_ret. by rewrite zip3_self.
    + apply Forall_fmap, Forall_forall. intros b _. simpl. auto.
  - eexists. split; [by apply batch_node_info_plain|].
    apply Forall_fmap, Forall_forall. intros b _. simpl. auto.
Qed.

Lemma count_split_points_cons c c' s :
  count_split_points (String c (String c' s))
  = (if bool_decide (c = "]"%char /\ c' = ","%char) then 1 else 0)
    + count_split_points (String c' s).
Proof. reflexivity. Qed.

Lemma length_cons_head c l : l <> [] -> length (cons_head c l) = length l.
Proof. by destruct l. Qed.

(** X7: the tokenizer yields one token more than there are commas right
    after a closing bracket, and each token is stable: tokenized on its own
    it is a single token, itself. *)
Theorem tokens_are_counted_and_stable s :
  length (re_split_after_bracket s) = S (count_split_points s)
  /\ Forall (fun t => re_split_after_bracket t = [t]) (re_split_after_bracket s).
Proof.
  split.
  - induction s as [|c|c c' s IH1 IH2] using string_pair_ind; [done..|].
    rewrite count_split_points_cons. case_bool_decide as Hc.
    + rewrite re_split_at by done. simpl length. rewrite IH1.
      destruct Hc as [_ ->]. destruct s as [|c'' s]; [done|].
      rewrite count_split_points_cons. case_bool_decide as Hc'; [by destruct Hc'|].
      simpl. lia.
    + rewrite re_split_skip by done.
      rewrite length_cons_head by apply re_split_nonempty. by rewrite IH2.
  - eapply Forall_impl; [apply re_split_no_split_point|].
    intros t Ht. by apply re_split_single.
Qed.

End MoreBatching.

Section MoreBatchingWitnesses.
Import Py Utils SlurmCommands Props MoreProps Samples.

Lemma batches_rejoin_to_the_input_witness :
  join ","
       (([("a-[1,2]", None, None); ("b-3,c-[4]", None, None)]
         : list (string * option string * option string)).*1.*1)
  = "a-[1,2],b-3,c-[4]".
Proof.
  apply (@batches_rejoin_to_the_input (machine true 0) "a-[1,2],b-3,c-[4]"
           None None 1 (fresh true 0) _ (fresh true 0)); [lia | reflexivity].
Defined.

Lemma batches_keep_pairs_together_witness :
  grouper (zip ["n1"; "n2"; "n3"] ["10.0.0.1"; "10.0.0.2"; "10.0.0.3"]) 2
  = zip_with zip (grouper ["n1"; "n2"; "n3"] 2)
                 (grouper ["10.0.0.1"; "10.0.0.2"; "10.0.0.3"] 2).
Proof.
  refine (proj1 (proj2 (@batches_keep_pairs_together (machine true 0)
                          ["n1"; "n2"; "n3"] ["10.0.0.1"; "10.0.0.2"; "10.0.0.3"] 2
                          (fresh true 0) _ _ _)));
    [lia | discriminate | reflexivity].
Defined.

End MoreBatchingWitnesses.

(** ** More on partitions, the cache and retries *)

Section MorePartitions.
Import Py Utils SlurmResources SlurmCommands Props MoreProps.
Context `{Env}.

Lemma partition_try_ok acc p state st st1 :
  update_partition p state st = (Ok tt, st1) ->
  try_except
    (update_partition p state ;; mret (acc ++ [p]))
    (fun e =>
       Some (log ERROR "Failed when setting partition %s to %s with error %s" ;;
             mret acc)) st
  = (Ok (acc ++ [p]), st1).
Proof. intros Hp. unfold try_except. by erewrite bind_ok by exact Hp. Qed.

Lemma partition_try_failed acc p state st e st1 :
  update_partition p state st = (Raise e, st1) ->
  try_except
    (update_partition p state ;; mret (acc ++ [p]))
    (fun e =>
       Some (log ERROR "Failed when setting partition %s to %s with error %s" ;;
             mret acc)) st
  = (Ok acc,
     mk_St (world st1)
           (trace st1 ++ [EvLog ERROR
                            "Failed when setting partition %s to %s with error %s"])
           (pnm_instance st1)).
Proof. intros Hp. unfold try_except. by erewrite bind_raise by exact Hp. Qed.

Lemma update_partitions_loop_commands ps state acc st :
  exists succeeded st' evs,
    for_fold ps acc (fun succeeded_partitions partition =>
      try_except
        (update_partition partition state ;;
         mret (succeeded_partitions ++ [partition]))
        (fun e =>
           Some (log ERROR "Failed when setting partition %s to %s with error %s" ;;
                 mret succeeded_partitions))) st
    = (Ok (acc ++ succeeded), st')
    /\ trace st' = trace st ++ evs
    /\ (commands evs).*1
       = ((fun p => partition_command p state)
            <$> filter (fun p => argument_ok p = true) ps)
    /\ sublist succeeded ps
    /\ forall p, p ∈ succeeded -> EvCmd (partition_command p state) true ∈ evs.
Proof.
  revert acc st. induction ps as [|p ps IH]; intros acc st.
  - exists [], st, []. rewrite !app_nil_r. repeat split; try done.
    intros p Hp. by apply elem_of_nil in Hp.
  - cbn [for_fold].
    destruct (argument_ok p) eqn:Hp.
    + rewrite filter_cons_True by done.
      destruct (run_command_trace (partition_command p state) true None st)
        as (ok & st1 & Ht1 & Hrun).
      rewrite orb_false_r in Hrun.
      assert (update_partition p state st
              = (if ok then Ok tt else Raise (CommandError (partition_command p state)),
                 st1)) as Hup.
      { unfold update_partition. by erewrite bind_ok by (by apply validate_ok). }
      destruct ok.
      * destruct (IH (acc ++ [p]) st1)
          as (succ & st' & evs & Hloop & Ht & Hc & Hsub & Hin).
        exists (p :: succ), st', (EvCmd (partition_command p state) true :: evs).
        split; [|split; [|split; [|split]]].
        -- erewrite bind_ok by (by apply partition_try_ok).
           rewrite Hloop. by rewrite <- app_assoc.
        -- rewrite Ht, Ht1. by rewrite <- app_assoc.
        -- cbn. by rewrite <- Hc.
        -- by apply sublist_skip.
        -- intros q [->|Hq]%elem_of_cons; [left|right; by apply Hin].
      * destruct (IH acc (mk_St (world st1)
                    (trace st1 ++ [EvLog ERROR
                       "Failed when setting partition %s to %s with error %s"])
                    (pnm_instance st1)))
          as (succ & st' & evs & Hloop & Ht & Hc & Hsub & Hin).
        exists succ, st',
          (EvCmd (partition_command p state) false
           :: EvLog ERROR "Failed when setting partition %s to %s with error %s" :: evs).
        split; [|split; [|split; [|split]]].
        -- erewrite bind_ok by (by eapply partition_try_failed). exact Hloop.
        -- rewrite Ht. simpl. rewrite Ht1. by rewrite <- !app_assoc.
        -- cbn. by rewrite <- Hc.
        -- by apply sublist_cons.
        -- intros q Hq. right. right. by apply Hin.
    + rewrite filter_cons_False by (by rewrite Hp).
      assert (update_partition p state st = (Raise (InjectionRisk p), st)) as Hup.
      { unfold update_partition. by erewrite bind_raise by (by apply validate_rejected). }
      destruct (IH acc (mk_St (world st)
                    (trace st ++ [EvLog ERROR
                       "Failed when setting partition %s to %s with error %s"])
                    (pnm_instance st)))
        as (succ & st' & evs & Hloop & Ht & Hc & Hsub & Hin).
      exists succ, st',
        (EvLog ERROR "Failed when setting partition %s to %s with error %s" :: evs).
      split; [|split; [|split; [|split]]].
      * erewrite bind_ok by (by eapply partition_try_failed). exact Hloop.
      * rewrite Ht. simpl. by rewrite <- !app_assoc.
      * cbn. by rewrite <- Hc.
      * by apply sublist_cons.
      * intros q Hq. right. by apply Hin.
Qed.

(** X8: once the state passes validation, [update_partitions] runs one
    command for every partition whose name passes validation, in order, and
    goes on after a failure; the list it returns is a sublist of its input,
    and the command of every partition of that list has succeeded. *)
Theorem update_partitions_tries_every_partition partitions state st :
  argument_ok state = true ->
  exists succeeded st' evs,
    update_partitions partitions state st = (Ok succeeded, st')
    /\ trace st' = trace st ++ evs
    /\ (commands evs).*1
       = ((fun p => partition_command p state)
            <$> filter (fun p => argument_ok p = true) partitions)
    /\ sublist succeeded partitions
    /\ forall p, p ∈ succeeded -> EvCmd (partition_command p state) true ∈ evs.
Proof.
  intros Hs. unfold update_partitions.
  erewrite bind_ok by (by apply validate_ok).
  apply (update_partitions_loop_commands partitions state []).
Qed.

(** X9: the mapping is read from the file once.  After a call that
    returned a non-empty mapping, every later call returns the same mapping
    and leaves the state alone, whatever has become of the file. *)
Theorem mapping_is_loaded_once st mapping st' :
  get_partition_nodelist_mapping st = (Ok mapping, st') ->
  mapping <> [] ->
  forall w events,
    let later := mk_St w events (pnm_instance st') in
    get_partition_nodelist_mapping later = (Ok mapping, later)
    /\ (instance ;; get_partitions) later = (Ok mapping.*1, later).
Proof.
  intros Hget Hne w events later.
  unfold get_partition_nodelist_mapping in Hget.
  assert (pnm_instance st' = Some mapping) as Hc.
  { destruct (pnm_instance st) as [[|x m]|] eqn:Hp.
    - destruct (load_mapping_file (world st)); [|done]. by injection Hget as <- <-.
    - by injection Hget as <- <-.
    - destruct (load_mapping_file (world st)); [|done]. by injection Hget as <- <-. }
  subst later. rewrite Hc.
  assert (get_partition_nodelist_mapping (mk_St w events (Some mapping))
          = (Ok mapping, mk_St w events (Some mapping))) as Hlater.
  { unfold get_partition_nodelist_mapping. simpl. by destruct mapping. }
  split; [exact Hlater|].
  erewrite bind_ok by reflexivity.
  unfold get_partitions. by erewrite bind_ok by exact Hlater.
Qed.

(** X10: a mapping file that cannot be loaded makes the accessor raise and
    leaves the cache as it was, so the next call tries again; and after
    [reset] the file is read anew. *)
Theorem mapping_failure_and_reset st :
  (load_mapping_file (world st) = None ->
   (pnm_instance st = None \/ pnm_instance st = Some []) ->
   (instance ;; get_partitions) st
   = (Raise OwnershipSourceError, mk_St (world st) (trace st) (Some [])))
  /\ (forall mapping,
        load_mapping_file (world st) = Some mapping ->
        (reset ;; instance ;; get_partition_nodelist_mapping) st
        = (Ok mapping, mk_St (world st) (trace st) (Some mapping))).
Proof.
  split.
  - intros Hload Hp. unfold instance, get_partitions, get_partition_nodelist_mapping.
    unfold mbind, M_bind. destruct st as [w events p]. simpl in *.
    destruct Hp as [-> | ->]; simpl; by rewrite Hload.
  - intros mapping Hload.
    unfold reset, instance, get_partition_nodelist_mapping, mbind, M_bind. simpl.
    by rewrite Hload.
Qed.

Lemma for_list_partitions chunks st parts st' :
  for_list chunks (fun info =>
    match info with
    | [partition_name; partition_state] =>
        nodes ← _get_all_partition_nodes partition_name DEFAULT_GET_INFO_COMMAND_TIMEOUT;
        mret (mk_partition partition_name nodes partition_state)
    | _ => raise ValueError
    end) st = (Ok parts, st') ->
  chunks = (fun p => [name p; state p]) <$> parts.
Proof.
  revert st parts st'. induction chunks as [|chunk chunks IH]; intros st parts st' Hrun.
  - by injection Hrun as <- _.
  - cbn [for_list] in Hrun.
    apply bind_cases in Hrun as [(p & st1 & Hp & Hrun)|(e & _ & [=])].
    apply bind_cases in Hrun as [(ps & st2 & Hps & Hrun)|(e & _ & [=])].
    injection Hrun as <- _. apply IH in Hps as ->. cbn. f_equal.
    destruct chunk as [|n [|s [|x chunk]]]; try done.
    apply bind_cases in Hp as [(nodes & st3 & _ & Hp)|(e & _ & [=])].
    by injection Hp as <- _.
Qed.

(** X11: when [get_partitions_info] returns, the output of its query had
    an even number of lines, which are, two by two and in order, the name
    and the state of the partitions returned. *)
Theorem partitions_follow_the_output command_timeout st parts st' :
  get_partitions_info command_timeout st = (Ok parts, st') ->
  exists cmd out w,
    capture_process cmd (Some command_timeout) (world st) = (Some out, w)
    /\ splitlines out = concat ((fun p => [name p; state p]) <$> parts)
    /\ length (splitlines out) = 2 * length parts.
Proof.
  unfold get_partitions_info. intros Hrun.
  apply bind_cases in Hrun as [([] & st1 & Hi & Hrun)|(e & _ & [=])].
  apply bind_cases in Hrun as [(ps & st2 & Hps & Hrun)|(e & _ & [=])].
  apply bind_cases in Hrun as [(out & st3 & Hout & Hrun)|(e & _ & [=])].
  assert (world st2 = world st) as Hw.
  { unfold instance in Hi. unfold get_partitions, get_partition_nodelist_mapping in Hps.
    apply bind_cases in Hps as [(m & st4 & Hm & Hps)|(e & _ & [=])].
    injection Hps as _ <-.
    assert (world st1 = world st) as <-.
    { destruct (pnm_instance st); by injection Hi as <-. }
    destruct (pnm_instance st1) as [[|]|]; try (by injection Hm as _ <-);
      destruct (load_mapping_file (world st1)); try done; by injection Hm as _ <-. }
  unfold check_command_output in Hout. rewrite Hw in Hout.
  match type of Hout with
  | context [capture_process ?c _ _] => set (cmd := c) in *
  end.
  destruct (capture_process cmd (Some command_timeout) (world st)) as [[text|] w] eqn:Hcap;
    [|done].
  injection Hout as <- _.
  apply for_list_partitions in Hrun. unfold _parse_partition_name_and_state in Hrun.
  exists cmd, text, w. split; [done|].
  assert (splitlines text = concat ((fun p => [name p; state p]) <$> parts)) as Hlines.
  { rewrite <- Hrun. symmetry. apply concat_grouper. lia. }
  split; [done|]. rewrite Hlines.
  clear. induction parts as [|p parts IH]; [done|]. cbn. rewrite IH. lia.
Qed.

Lemma collect_partitions_in_state state reset parts acc st :
  (forall p, p ∈ parts ->
     exists s, PartitionStatus (SlurmResources.state p) = Some s
               /\ PartitionStatus state = Some s) ->
  for_fold parts acc (collect_partition state reset) st = (Ok acc, st).
Proof.
  revert acc. induction parts as [|p parts IH]; intros acc Hall; [done|].
  cbn [for_fold]. erewrite bind_ok; [apply IH|].
  - intros q Hq. apply Hall. by right.
  - destruct (Hall p) as (s & Hp & Hs); [by left|].
    unfold collect_partition. rewrite Hp, Hs. simpl.
    erewrite !bind_ok by reflexivity. by destruct (decide (s <> s)).
Qed.

(** X17: when every partition already has the target status,
    [update_all_partitions] runs no command after the queries, so powers no
    node down, and returns whether the target state passes the validation
    of arguments: true for a state that passes, nothing having changed
    since the queries; false for a rejected one, the rejection being
    caught and logged. *)
Theorem update_all_partitions_is_idle_in_state state reset st parts st1 :
  get_partitions_info DEFAULT_GET_INFO_COMMAND_TIMEOUT st = (Ok parts, st1) ->
  (forall p, p ∈ parts ->
     exists s, PartitionStatus (SlurmResources.state p) = Some s
               /\ PartitionStatus state = Some s) ->
  exists st',
    update_all_partitions state reset st = (Ok (argument_ok state), st')
    /\ commands (events_since st1 st') = []
    /\ (argument_ok state = true -> st' = st1).
Proof.
  intros Hq Hall.
  assert (partitions_to_update state reset st = (Ok [], st1)) as Htargets.
  { unfold partitions_to_update. erewrite bind_ok by exact Hq.
    by apply collect_partitions_in_state. }
  destruct (argument_ok state) eqn:Hs.
  - assert (update_partitions [] state st1 = (Ok [], st1)) as Hup.
    { unfold update_partitions. by erewrite bind_ok by (by apply validate_ok). }
    exists st1. split; [|split; [|done]].
    + unfold update_all_partitions, try_except.
      erewrite bind_ok by exact Htargets. by erewrite bind_ok by exact Hup.
    + unfold events_since. by rewrite drop_all.
  - assert (update_partitions [] state st1 = (Raise (InjectionRisk state), st1)) as Hup.
    { unfold update_partitions. by erewrite bind_raise by (by apply validate_rejected). }
    exists (mk_St (world st1)
              (trace st1 ++ [EvLog ERROR "Failed when updating partitions with error %s"])
              (pnm_instance st1)).
    split; [|split; [|done]].
    + unfold update_all_partitions, try_except.
      erewrite bind_ok by exact Htargets. erewrite bind_raise by exact Hup.
      reflexivity.
    + unfold events_since. simpl. by rewrite drop_app_length.
Qed.

End MorePartitions.

Section MoreRetry.
Import Py Utils SlurmCommands Props MoreProps.
Context `{Env}.

Lemma sleep_then {A} ms (m : M A) st : (sleep ms ;; m) st = m (slept ms st).
Proof. reflexivity. Qed.

(** X12: [set_nodes_power_down] stops at the first attempt that returns:
    without any sleep when the first one does, after one sleep when the
    second one does; otherwise its result is that of the third attempt,
    made after a second sleep. *)
Theorem set_nodes_power_down_stops_at_success nodes reason st :
  let attempt := reset_nodes nodes (Some "power_down_force") reason true in
  (forall st1, attempt st = (Ok tt, st1) ->
     set_nodes_power_down nodes reason st = (Ok tt, st1))
  /\ (forall e st1 st2,
        attempt st = (Raise e, st1) -> attempt (slept 1500 st1) = (Ok tt, st2) ->
        set_nodes_power_down nodes reason st = (Ok tt, st2))
  /\ (forall e1 st1 e2 st2 r st3,
        attempt st = (Raise e1, st1) -> attempt (slept 1500 st1) = (Raise e2, st2) ->
        attempt (slept 1500 st2) = (r, st3) ->
        set_nodes_power_down nodes reason st = (r, st3)).
Proof.
  intros attempt. unfold set_nodes_power_down, retry. cbn [Nat.pred retry_loop].
  fold attempt. split; [|split].
  - intros st1 H1. unfold try_except at 1. by rewrite H1.
  - intros e st1 st2 H1 H2. unfold try_except at 1. rewrite H1.
    rewrite sleep_then. unfold try_except at 1. by rewrite H2.
  - intros e1 st1 e2 st2 r st3 H1 H2 H3. unfold try_except at 1. rewrite H1.
    rewrite sleep_then. unfold try_except at 1. rewrite H2.
    rewrite sleep_then. unfold try_except. rewrite H3. by destruct r.
Qed.

End MoreRetry.

Section MorePartitionsWitnesses.
Import Py Utils SlurmResources SlurmCommands Props MoreProps Samples MoreSamples.

Lemma update_partitions_tries_every_partition_witness :
  exists succeeded st' evs,
    @update_partitions cluster ["queue1"; "bad;name"; "queue3"] "INACTIVE"
                       (cluster_start [false; true])
    = (Ok succeeded, st')
    /\ trace st' = [] ++ evs
    /\ (commands evs).*1
       = ((fun p => @partition_command cluster p "INACTIVE") <$> ["queue1"; "queue3"])
    /\ sublist succeeded ["queue1"; "bad;name"; "queue3"]
    /\ forall p, p ∈ succeeded
                 -> EvCmd (@partition_command cluster p "INACTIVE") true ∈ evs.
Proof.
  apply (@update_partitions_tries_every_partition cluster
           ["queue1"; "bad;name"; "queue3"] "INACTIVE" (cluster_start [false; true])).
  reflexivity.
Defined.

Lemma mapping_is_loaded_once_witness :
  @get_partition_nodelist_mapping (machine false 0)
     (@mk_St (machine false 0) tt [EvSleep 1500]
        (Some [("queue1", "queue1-st-c5xlarge-[1-2]");
               ("queue2", "queue2-dy-c5xlarge-[1-2]");
               ("queue3", "queue3-dy-c5xlarge-[1-2]")]))
  = (Ok [("queue1", "queue1-st-c5xlarge-[1-2]");
         ("queue2", "queue2-dy-c5xlarge-[1-2]");
         ("queue3", "queue3-dy-c5xlarge-[1-2]")],
     @mk_St (machine false 0) tt [EvSleep 1500]
        (Some [("queue1", "queue1-st-c5xlarge-[1-2]");
               ("queue2", "queue2-dy-c5xlarge-[1-2]");
               ("queue3", "queue3-dy-c5xlarge-[1-2]")])).
Proof.
  refine (proj1 (@mapping_is_loaded_once (machine false 0) (fresh false 0)
           [("queue1", "queue1-st-c5xlarge-[1-2]");
            ("queue2", "queue2-dy-c5xlarge-[1-2]");
            ("queue3", "queue3-dy-c5xlarge-[1-2]")]
           (@mk_St (machine false 0) tt []
              (Some [("queue1", "queue1-st-c5xlarge-[1-2]");
                     ("queue2", "queue2-dy-c5xlarge-[1-2]");
                     ("queue3", "queue3-dy-c5xlarge-[1-2]")]))
           _ _ tt [EvSleep 1500]));
    [reflexivity | discriminate].
Defined.

Lemma mapping_failure_and_reset_witness :
  (@reset (machine true 0) ;; @instance (machine true 0) ;;
   @get_partition_nodelist_mapping (machine true 0))
    (@mk_St (machine true 0) tt [] (Some [("old", "old-st-c5-[1-2]")]))
  = (Ok [("queue1", "queue1-st-c5xlarge-[1-2]");
         ("queue2", "queue2-dy-c5xlarge-[1-2]");
         ("queue3", "queue3-dy-c5xlarge-[1-2]")],
     @mk_St (machine true 0) tt []
       (Some [("queue1", "queue1-st-c5xlarge-[1-2]");
              ("queue2", "queue2-dy-c5xlarge-[1-2]");
              ("queue3", "queue3-dy-c5xlarge-[1-2]")])).
Proof.
  refine (proj2 (@mapping_failure_and_reset (machine true 0)
                   (@mk_St (machine true 0) tt [] (Some [("old", "old-st-c5-[1-2]")])))
                _ _).
  reflexivity.
Defined.

Lemma partitions_follow_the_output_witness :
  exists cmd out w,
    @capture_process cluster cmd (Some 30%Z) [] = (Some out, w)
    /\ splitlines out
       = concat ((fun p => [name p; state p])
                   <$> [mk_partition "queue1" "nodes-[1-2]" "UP";
                        mk_partition "queue2" "nodes-[1-2]" "INACTIVE";
                        mk_partition "queue3" "nodes-[1-2]" "UP"])
    /\ length (splitlines out) = 2 * 3.
Proof.
  apply (@partitions_follow_the_output cluster 30%Z (cluster_start [])
           [mk_partition "queue1" "nodes-[1-2]" "UP";
            mk_partition "queue2" "nodes-[1-2]" "INACTIVE";
            mk_partition "queue3" "nodes-[1-2]" "UP"]
           (@get_partitions_info cluster 30%Z (cluster_start [])).2).
  vm_compute. reflexivity.
Defined.

Lemma set_nodes_power_down_stops_at_success_witness :
  exists st2,
    @set_nodes_power_down cluster (PStr "nodes-[1-2]") None (cluster_start [false; true])
    = (Ok tt, st2).
Proof.
  exists (@set_nodes_power_down cluster (PStr "nodes-[1-2]") None
            (cluster_start [false; true])).2.
  apply (proj1 (proj2 (@set_nodes_power_down_stops_at_success cluster
                         (PStr "nodes-[1-2]") None (cluster_start [false; true])))
           (CommandError
              "sudo /opt/slurm/bin/scontrol update state=power_down_force nodename=nodes-[1-2] nodeaddr=nodes-[1-2] nodehostname=nodes-[1-2]")
           (@reset_nodes cluster (PStr "nodes-[1-2]") (Some "power_down_force") None true
              (cluster_start [false; true])).2);
    vm_compute; reflexivity.
Defined.

Lemma update_all_partitions_is_idle_in_state_witness :
  exists st',
    @update_all_partitions steady_cluster "UP" true steady_start
    = (Ok true, st')
    /\ commands (events_since (@get_partitions_info steady_cluster 30%Z steady_start).2
                              st') = []
    /\ (@argument_ok steady_cluster "UP" = true
        -> st' = (@get_partitions_info steady_cluster 30%Z steady_start).2).
Proof.
  apply (@update_all_partitions_is_idle_in_state steady_cluster "UP" true steady_start
           [mk_partition "queue1" "nodes-[1-2]" "UP";
            mk_partition "queue3" "nodes-[1-2]" "UP"]).
  - vm_compute. reflexivity.
  - intros p Hp. exists "UP".
    apply elem_of_cons in Hp as [->|Hp]; [split; reflexivity|].
    apply list_elem_of_singleton in Hp as ->. split; reflexivity.
Defined.

End MorePartitionsWitnesses.

(** ** More on the node dump and the queries *)

Section MoreParser.
Import Py Utils SlurmResources SlurmCommands SlurmQueries Props MoreProps.
Context `{Env}.

Lemma build_node_well_named kwargs node :
  build_node kwargs = Ok node -> well_named node.
Proof.
  unfold build_node, kwargs_name, is_static_node. intros Hb.
  destruct (kwargs !! "name") as [[n| |]|] eqn:Hn; try done.
  cbn [mbind result_bind] in Hb.
  destruct (parse_nodename n) as [[[q m] c]|] eqn:Hp; [|done].
  cbn [mbind result_bind] in Hb.
  unfold StaticNode, DynamicNode, new_node in Hb.
  destruct (has_mandatory kwargs) eqn:Hm; [|by destruct (bool_decide ("st" = m))].
  exists n, q, m, c.
  destruct (bool_decide ("st" = m)); injection Hb as <-; done.
Qed.

(** What a record adds: nothing when it has no line, a warning when its
    name does not parse, a well-named node otherwise. *)
Lemma parse_record_cases acc chunk st acc' st' :
  parse_record acc chunk st = (Ok acc', st') ->
  (splitlines chunk = [] /\ acc' = acc /\ st' = st)
  \/ (splitlines chunk <> [] /\ acc' = acc
      /\ trace st' = trace st
                     ++ [EvLog WARNING "Ignoring node %s because it has an invalid name"])
  \/ (splitlines chunk <> [] /\ st' = st
      /\ exists node, acc' = acc ++ [node] /\ well_named node).
Proof.
  unfold parse_record. intros Hrun.
  apply bind_cases in Hrun as [(kwargs & st1 & Hk & Hrun)|(e & _ & [=])].
  injection Hk as Hk <-.
  destruct (splitlines chunk) as [|line lines] eqn:Hlines.
  - left. by injection Hrun as <- <-.
  - right. unfold try_except, liftR in Hrun.
    destruct (build_node kwargs) as [node|e] eqn:Hb.
    + right. erewrite bind_ok in Hrun by reflexivity. injection Hrun as <- <-.
      split; [done|]. split; [done|]. exists node. split; [done|].
      by eapply build_node_well_named.
    + left. erewrite bind_raise in Hrun by reflexivity.
      destruct e; try done. by injection Hrun as <- <-.
Qed.

Lemma warnings_app evs1 evs2 : warnings (evs1 ++ evs2) = warnings evs1 ++ warnings evs2.
Proof. apply omap_app. Qed.

Lemma parse_records_account chunks acc st nodes st' :
  for_fold chunks acc parse_record st = (Ok nodes, st') ->
  exists new evs,
    nodes = acc ++ new /\ Forall well_named new
    /\ trace st' = trace st ++ evs /\ commands evs = []
    /\ length new + length (warnings evs)
       = length (filter (fun node => splitlines node <> []) chunks).
Proof.
  revert acc st. induction chunks as [|chunk chunks IH]; intros acc st Hrun.
  - injection Hrun as <- <-. exists [], []. by rewrite !app_nil_r.
  - cbn [for_fold] in Hrun.
    apply bind_cases in Hrun as [(acc1 & st1 & Hrec & Hrun)|(e & _ & [=])].
    destruct (IH _ _ Hrun) as (new & evs & -> & Hall & Ht & Hc & Hlen).
    apply parse_record_cases in Hrec
      as [(Hl & -> & ->)|[(Hl & -> & Ht1)|(Hl & -> & node & -> & Hnode)]].
    + exists new, evs. rewrite filter_cons_False by (by intros ?). done.
    + exists new, (EvLog WARNING "Ignoring node %s because it has an invalid name" :: evs).
      rewrite filter_cons_True by done. split; [done|]. split; [done|]. split.
      { rewrite Ht, Ht1. by rewrite <- app_assoc. }
      split; [exact Hc|].
      change (length new + S (length (warnings evs))
              = S (length (filter (fun node => splitlines node <> []) chunks))).
      rewrite Nat.add_succ_r. by f_equal.
    + exists (node :: new), evs. rewrite filter_cons_True by done.
      split; [by rewrite <- app_assoc|]. split; [by constructor|].
      split; [done|]. split; [done|]. cbn. by rewrite <- Hlen.
Qed.

(** X13: when [_parse_nodes_info] returns, every node of the list has a
    name that parses, the kind of the provisioning mode of that name, and
    the mandatory attributes; each record with a line gave either one node
    or one warning, and no command was run. *)
Theorem parsed_nodes_are_well_named dump st nodes st' :
  _parse_nodes_info dump st = (Ok nodes, st') ->
  Forall well_named nodes
  /\ exists evs,
      trace st' = trace st ++ evs /\ commands evs = []
      /\ length nodes + length (warnings evs) = length (filled_records dump).
Proof.
  unfold _parse_nodes_info. intros Hrun.
  destruct (parse_records_account _ _ _ _ _ Hrun) as (new & evs & -> & Hall & Ht & Hc & Hlen).
  split; [done|]. by exists evs.
Qed.

(** X14: the nodes that [get_nodes_info] returns come from the output of
    one [scontrol show nodes] command, run on a node expression that passed
    validation (the argument itself when it is not empty), and they are all
    well named. *)
Theorem get_nodes_info_result nodes command_timeout st result st' :
  get_nodes_info nodes command_timeout st = (Ok result, st') ->
  exists expr st1 out st2,
    argument_ok expr = true
    /\ (nodes <> EmptyString -> expr = nodes /\ st1 = st)
    /\ check_command_output
         (SCONTROL +:+ " show nodes " +:+ expr +:+ " | " +:+ SCONTROL_OUTPUT_AWK_PARSER)
         (Some command_timeout) st1 = (Ok out, st2)
    /\ _parse_nodes_info out st2 = (Ok result, st')
    /\ Forall well_named result.
Proof.
  unfold get_nodes_info. intros Hrun.
  apply bind_cases in Hrun as [(expr & st1 & Hexpr & Hrun)|(e & _ & [=])].
  apply bind_cases in Hrun as [([] & st1' & Hv & Hrun)|(e & _ & [=])].
  unfold validate_subprocess_argument in Hv.
  destruct (argument_ok expr) eqn:Hok; [|done]. injection Hv as <-.
  apply bind_cases in Hrun as [(out & st2 & Hout & Hrun)|(e & _ & [=])].
  exists expr, st1, out, st2. split; [done|]. split; [|split; [done|split; [done|]]].
  - intros Hne. destruct (decide (nodes = EmptyString)); [done|].
    by injection Hexpr as <- <-.
  - by apply parsed_nodes_are_well_named in Hrun as [? _].
Qed.

Lemma split_char_nonempty c skip s : split_go (String c EmptyString) skip s <> [].
Proof.
  revert skip. induction s as [|a s IH]; intros skip; [done|].
  simpl. destruct skip; [|apply IH].
  destruct (decide (c = a)); [done|].
  specialize (IH 0). by destruct (split_go (String c EmptyString) 0 s).
Qed.

(** Splitting at a character and joining by it gives the text back. *)
Lemma join_split_char c s :
  join (String c EmptyString) (split (String c EmptyString) s) = s.
Proof.
  unfold split. induction s as [|a s IH]; [done|].
  simpl. destruct (decide (c = a)) as [->|Hne].
  - rewrite join_cons by apply split_char_nonempty. by rewrite IH.
  - rewrite join_cons_head by apply split_char_nonempty. by rewrite IH.
Qed.

(** Splitting at a character gives one piece more than the character
    has occurrences. *)
Lemma length_split_char c s :
  length (split (String c EmptyString) s) = S (occurrences c s).
Proof.
  unfold split. induction s as [|a s IH]; [done|].
  simpl. destruct (decide (c = a)).
  - simpl. by rewrite IH.
  - by rewrite length_cons_head by apply split_char_nonempty.
Qed.

Lemma occurrences_app c s1 s2 :
  occurrences c (s1 +:+ s2) = occurrences c s1 + occurrences c s2.
Proof.
  induction s1 as [|a s1 IH]; [done|].
  rewrite app_String. simpl. rewrite IH. lia.
Qed.

(** X15: a line is accepted by the parser only if it is a key, one equals
    sign and a value, with a key of the table: the line holds exactly one
    equals sign, so neither the key nor the value holds any.  The argument
    of that key is then set, to the text of the value, or for a date key to
    a timestamp or [None]. *)
Theorem accepted_line_shape kwargs line kwargs' :
  parse_line kwargs line = Ok kwargs' ->
  exists key value arg v,
    line = key +:+ "=" +:+ value
    /\ occurrences "=" line = 1
    /\ occurrences "=" key = 0 /\ occurrences "=" value = 0
    /\ map_slurm_key_to_arg !! key = Some arg
    /\ kwargs' = <[arg := v]> kwargs
    /\ (key ∉ date_fields -> v = VStr value)
    /\ (key ∈ date_fields -> v = VNone \/ exists t, v = VDatetime t).
Proof.
  unfold parse_line. intros Hp.
  pose proof (join_split_char "="%char line) as Hjoin.
  pose proof (length_split_char "="%char line) as Hocc.
  destruct (split "=" line) as [|key [|value [|x rest]]]; try done.
  simpl in Hjoin. simpl in Hocc.
  assert (occurrences "=" line = 1) as Hone by lia.
  assert (occurrences "=" key = 0 /\ occurrences "=" value = 0) as [Hkey Hvalue].
  { pose proof Hone as Hsum. rewrite <- Hjoin in Hsum.
    rewrite occurrences_app in Hsum.
    change ("=" +:+ value) with (String "="%char value) in Hsum.
    simpl in Hsum. lia. }
  destruct (bool_decide (key ∈ date_fields)) eqn:Hd.
  - apply bool_decide_eq_true in Hd.
    destruct (parse_date value) as [v|e] eqn:Hv; [|done].
    cbn [mbind result_bind] in Hp.
    destruct (map_slurm_key_to_arg !! key) as [arg|] eqn:Harg; [|done].
    injection Hp as <-. exists key, value, arg, v.
    do 6 (split; [done|]). split; [done|].
    intros _. unfold parse_date in Hv. case_bool_decide; [|by injection Hv as <-; left].
    destruct (Datetime.strptime value); [|done]. injection Hv as <-. right. eauto.
  - apply bool_decide_eq_false in Hd. cbn [mbind result_bind] in Hp.
    destruct (map_slurm_key_to_arg !! key) as [arg|] eqn:Harg; [|done].
    injection Hp as <-. exists key, value, arg, (VStr value).
    do 6 (split; [done|]). split; [done|]. done.
Qed.

Lemma all_partitions_trace st r st' :
  all_partitions st = (r, st') -> trace st' = trace st.
Proof.
  intros Hrun. change st' with (r, st').2. rewrite <- Hrun. clear Hrun.
  unfold all_partitions, instance, get_partitions, get_partition_nodelist_mapping.
  unfold mbind, M_bind, mret, M_ret.
  destruct st as [w events [[|x m]|]]; simpl;
    try destruct (load_mapping_file w); done.
Qed.

Lemma all_partitions_no_command_error st c st' :
  all_partitions st <> (Raise (CommandError c), st').
Proof.
  unfold all_partitions, instance, get_partitions, get_partition_nodelist_mapping.
  unfold mbind, M_bind, mret, M_ret.
  destruct st as [w events [[|x m]|]]; simpl;
    try destruct (load_mapping_file w); done.
Qed.

Lemma get_slurm_nodes_failure states partition_name timeout st c st' :
  _get_slurm_nodes states partition_name timeout st = (Raise (CommandError c), st') ->
  trace st' = trace st ++ [EvCmd c false].
Proof.
  unfold _get_slurm_nodes. intros Hrun.
  apply bind_cases in Hrun as [(pn & st1 & Hpn & Hrun)|(e & Hpn & He)].
  - assert (trace st1 = trace st) as <-.
    { destruct partition_name as [p|]; [destruct (truthy_str p)|];
        first [by injection Hpn as _ <- | by eapply all_partitions_trace]. }
    apply bind_cases in Hrun as [([] & st2 & Hv & Hrun)|(e & Hv & He)].
    + unfold validate_subprocess_argument in Hv.
      destruct (argument_ok pn); [|done]. injection Hv as <-.
      apply bind_cases in Hrun as [(cmd & st3 & Hcmd & Hrun)|(e & Hcmd & He)].
      * assert (st3 = st1) as ->.
        { destruct states as [s|]; [destruct (truthy_str s)|];
            try by injection Hcmd as _ <-.
          unfold validate_subprocess_argument in Hcmd.
          destruct (argument_ok s); by injection Hcmd as _ <-. }
        apply bind_cases in Hrun as [(out & st4 & Hout & Hrun)|(e & Hout & He)];
          [done|].
        unfold check_command_output in Hout.
        destruct (capture_process cmd (Some timeout) (world st1)) as [[text|] w];
          [done|].
        injection Hout as <- <-. injection He as <-. done.
      * destruct states as [s|]; [destruct (truthy_str s)|]; try done.
        unfold validate_subprocess_argument in Hcmd.
        destruct (argument_ok s); [done|]. injection Hcmd as <- _. done.
    + unfold validate_subprocess_argument in Hv.
      destruct (argument_ok pn); [done|]. injection Hv as <- _. done.
  - injection He as <-.
    destruct partition_name as [p|]; [destruct (truthy_str p)|]; try done;
      by apply all_partitions_no_command_error in Hpn.
Qed.

(** X16: [resume_powering_down_nodes] can raise a command error only for
    its own query: the failed query is then the single command of the call,
    no update has been run; a failed update is never raised. *)
Theorem resume_raises_only_for_its_query st c st' :
  resume_powering_down_nodes st = (Raise (CommandError c), st') ->
  commands (events_since st st') = [(c, false)].
Proof.
  unfold resume_powering_down_nodes. intros Hrun.
  apply bind_cases in Hrun as [([] & st1 & Hlog & Hrun)|(e & [=] & _)].
  injection Hlog as <-.
  apply bind_cases in Hrun as [(nodes & st2 & Hq & Hrun)|(e & Hq & He)].
  - exfalso.
    pose proof (update_nodes_quiet_results (PList nodes) None None (Some "resume") None
                  DEFAULT_UPDATE_COMMAND_TIMEOUT st2 _ _
                  (batch_node_info_plain (PList nodes) None None 100 st2 eq_refl eq_refl))
      as Hres.
    rewrite Hrun in Hres. done.
  - injection He as <-. apply get_slurm_nodes_failure in Hq. simpl in Hq.
    unfold events_since. rewrite Hq. rewrite <- app_assoc, drop_app_length. done.
Qed.

End MoreParser.

Section MoreParserWitnesses.
Import Py Utils SlurmResources SlurmCommands SlurmQueries Props MoreProps.
Import Samples MoreSamples.

Lemma parsed_nodes_are_well_named_witness :
  Forall (@well_named (machine true 0))
         [mk_node Static (record_kwargs "queue1-st-c5xlarge-3" VNone);
          mk_node Dynamic (record_kwargs "queue1-dy-c5xlarge-3" VNone)]
  /\ exists evs,
      [EvLog WARNING "Ignoring node %s because it has an invalid name"] = [] ++ evs
      /\ commands evs = []
      /\ 2 + length (warnings evs)
         = length (filled_records
                     (record "queue1-st-c5xlarge-3" "None"
                      +:+ record "queue1-c5xlarge" "None"
                      +:+ record "queue1-dy-c5xlarge-3" "None")).
Proof.
  apply (@parsed_nodes_are_well_named (machine true 0)
           (record "queue1-st-c5xlarge-3" "None" +:+ record "queue1-c5xlarge" "None"
            +:+ record "queue1-dy-c5xlarge-3" "None")
           (fresh true 0)
           [mk_node Static (record_kwargs "queue1-st-c5xlarge-3" VNone);
            mk_node Dynamic (record_kwargs "queue1-dy-c5xlarge-3" VNone)]
           (@mk_St (machine true 0) tt
              [EvLog WARNING "Ignoring node %s because it has an invalid name"] None)).
  vm_compute. reflexivity.
Defined.

Lemma get_nodes_info_result_witness :
  exists expr st1 out st2,
    @argument_ok dump_machine expr = true
    /\ ("queue1-st-c5xlarge-1,queue1-dy-c5xlarge-2" <> EmptyString ->
        expr = "queue1-st-c5xlarge-1,queue1-dy-c5xlarge-2" /\ st1 = dump_start)
    /\ @check_command_output dump_machine
         (@SCONTROL dump_machine +:+ " show nodes " +:+ expr +:+ " | "
          +:+ SCONTROL_OUTPUT_AWK_PARSER)
         (Some 30%Z) st1 = (Ok out, st2)
    /\ @_parse_nodes_info dump_machine out st2
       = (Ok [mk_node Static (record_kwargs "queue1-st-c5xlarge-1" VNone);
              mk_node Dynamic (record_kwargs "queue1-dy-c5xlarge-2" VNone)],
          (@get_nodes_info dump_machine "queue1-st-c5xlarge-1,queue1-dy-c5xlarge-2"
             30%Z dump_start).2)
    /\ Forall (@well_named dump_machine)
              [mk_node Static (record_kwargs "queue1-st-c5xlarge-1" VNone);
               mk_node Dynamic (record_kwargs "queue1-dy-c5xlarge-2" VNone)].
Proof.
  apply (@get_nodes_info_result dump_machine
           "queue1-st-c5xlarge-1,queue1-dy-c5xlarge-2" 30%Z dump_start).
  vm_compute. reflexivity.
Defined.

Lemma accepted_line_shape_witness :
  exists key value arg v,
    "State=IDLE+CLOUD+POWER" = key +:+ "=" +:+ value
    /\ occurrences "=" "State=IDLE+CLOUD+POWER" = 1
    /\ occurrences "=" key = 0 /\ occurrences "=" value = 0
    /\ @map_slurm_key_to_arg !! key = Some arg
    /\ <["state" := VStr "IDLE+CLOUD+POWER"]> (∅ : gmap string pyval) = <[arg := v]> ∅
    /\ (key ∉ date_fields -> v = VStr value)
    /\ (key ∈ date_fields -> v = VNone \/ exists t, v = VDatetime t).
Proof.
  apply (@accepted_line_shape (machine true 0) ∅ "State=IDLE+CLOUD+POWER").
  reflexivity.
Defined.

Lemma resume_raises_only_for_its_query_witness :
  commands (events_since (fresh false 0)
              (@resume_powering_down_nodes (machine false 0) (fresh false 0)).2)
  = [("/opt/slurm/bin/sinfo -h -N -o %N -p queue1,queue2,queue3 -t powering_down",
      false)].
Proof.
  apply (@resume_raises_only_for_its_query (machine false 0) (fresh false 0)).
  vm_compute. reflexivity.
Defined.

End MoreParserWitnesses.

(** ** A record the parser cannot read *)

Section UnreadableRecords.
Import Py Utils SlurmResources SlurmCommands Props MoreProps.
Context `{Env}.

Lemma length_split_char_app c s1 s2 :
  length (split (String c EmptyString) (s1 +:+ s2)) + 1
  = length (split (String c EmptyString) s1) + length (split (String c EmptyString) s2).
Proof.
  unfold split. induction s1 as [|a s1 IH].
  - change (EmptyString +:+ s2) with s2. simpl. lia.
  - rewrite app_String. simpl. destruct (decide (c = a)).
    + simpl. lia.
    + rewrite !length_cons_head by apply split_char_nonempty. exact IH.
Qed.

Lemma length_split_char_pos c s : 0 < length (split (String c EmptyString) s).
Proof.
  pose proof (split_char_nonempty c 0 s) as Hne. unfold split.
  destruct (split_go (String c EmptyString) 0 s); [done|simpl; lia].
Qed.

Lemma parse_lines_app kwargs pre lines :
  parse_lines kwargs (pre ++ lines)
  = (kwargs' ← parse_lines kwargs pre; parse_lines kwargs' lines).
Proof.
  revert kwargs. induction pre as [|line pre IH]; intros kwargs; [done|].
  simpl. destruct (parse_line kwargs line) as [kwargs'|e]; [|done].
  cbn [mbind result_bind]. apply IH.
Qed.

(** X18: a record with a [Reason] whose text holds an equals sign cannot
    be read: once the lines before it are parsed, the line is split in more
    than two parts and the parse of the whole dump stops with
    [ValueError], whatever the records already read. *)
Theorem reason_with_equals_sign_aborts slurm_nodes node pre a b post kwargs st :
  splitlines node = pre ++ ("Reason=" +:+ a +:+ "=" +:+ b) :: post ->
  parse_lines ∅ pre = Ok kwargs ->
  parse_record slurm_nodes node st = (Raise ValueError, st)
  /\ forall rest, for_fold (node :: rest) slurm_nodes parse_record st
                  = (Raise ValueError, st).
Proof.
  intros Hlines Hpre.
  assert (parse_line kwargs ("Reason=" +:+ a +:+ "=" +:+ b) = Raise ValueError) as Hline.
  { unfold parse_line.
    pose proof (length_split_char_app "="%char "Reason=" (a +:+ "=" +:+ b)) as H1.
    pose proof (length_split_char_app "="%char a ("=" +:+ b)) as H2.
    pose proof (length_split_char_pos "="%char a) as H3.
    pose proof (length_split_char_pos "="%char b) as H4.
    change (length (split "=" "Reason=")) with 2 in H1.
    change (split "=" ("=" +:+ b)) with (EmptyString :: split "=" b) in H2.
    simpl length in H2.
    change ("Reason=" +:+ a +:+ "=" +:+ b) with ("Reason=" +:+ (a +:+ "=" +:+ b)).
    destruct (split "=" ("Reason=" +:+ a +:+ "=" +:+ b)) as [|k [|v [|x l]]];
      try done; simpl in H1; lia. }
  assert (parse_record slurm_nodes node st = (Raise ValueError, st)) as Hrec.
  { unfold parse_record. rewrite Hlines, parse_lines_app, Hpre.
    cbn [mbind result_bind parse_lines]. rewrite Hline. done. }
  split; [done|]. intros rest. cbn [for_fold]. by erewrite bind_raise by exact Hrec.
Qed.

End UnreadableRecords.

Section UnreadableRecordsWitnesses.
Import Py Utils SlurmResources SlurmCommands Props MoreProps Samples.

Lemma reason_with_equals_sign_aborts_witness :
  @parse_record (machine true 0) []
     ("NodeName=queue1-st-c5xlarge-1" +:+ nl +:+ "Reason=limit=reached" +:+ nl)
     (fresh true 0)
  = (Raise ValueError, fresh true 0).
Proof.
  refine (proj1 (@reason_with_equals_sign_aborts (machine true 0) []
                   ("NodeName=queue1-st-c5xlarge-1" +:+ nl +:+ "Reason=limit=reached"
                    +:+ nl)
                   ["NodeName=queue1-st-c5xlarge-1"] "limit" "reached" []
                   (<["name" := VStr "queue1-st-c5xlarge-1"]> ∅) (fresh true 0) _ _));
    reflexivity.
Defined.

End UnreadableRecordsWitnesses.
